(** * vunit: the general tokenizer and the Verilog preprocessor

    A shallow embedding of [vunit/parsing/tokenizer.py] and
    [vunit/parsing/verilog/preprocess.py], with the properties of their
    specification stated and proved over it.

    Conventions of the embedding:
    - Python [str] is [string]; offsets that the code computes with [-]
      are [Z], list positions and cursors are [nat];
    - a Python [dict] with [str] keys is a [gmap string _];
    - a mutable object handed to a function is passed in and returned
      (explicit state passing);
    - a call that may raise returns an [outcome]; [None] results are
      [option];
    - calls on [LOGGER] only write to the log and are left out; a call
      among their arguments is evaluated before them and is kept. *)

From Stdlib Require Import ZArith Lia String Ascii.
From stdpp Require Import base option list strings gmap pretty.


(** ** Outcomes of Python calls *)

Inductive exn : Set :=
  | AttributeError
  | KeyError
  | IndexError
  | UnboundLocalError
  | TypeError
  | OSError.

(** [OutOfFuel] is not a Python value: a loop with no static bound runs
    on a step budget, and [OutOfFuel] says the budget was too small. *)
Inductive outcome (A : Type) : Type :=
  | Ret (a : A)
  | Raise (e : exn)
  | OutOfFuel.
Arguments Ret {A} a.
Arguments Raise {A} e.
Arguments OutOfFuel {A}.

#[global] Instance outcome_ret : MRet outcome := λ A a, Ret a.

#[global] Instance outcome_bind : MBind outcome := λ A B k m,
  match m with
  | Ret a => k a
  | Raise e => Raise e
  | OutOfFuel => OutOfFuel
  end.

Definition returns {A} (m : outcome A) : Prop := ∃ a, m = Ret a.

(** ** Python strings and lists *)

Module Py.

Fixpoint str_drop (n : nat) (s : string) : string :=
  match n, s with
  | O, _ => s
  | S _, EmptyString => EmptyString
  | S n', String _ s' => str_drop n' s'
  end.

Fixpoint str_take (n : nat) (s : string) : string :=
  match n, s with
  | O, _ => EmptyString
  | S _, EmptyString => EmptyString
  | S n', String c s' => String c (str_take n' s')
  end.

(** [s[i:j]] for non-negative [i] and [j]. *)
Definition str_slice (s : string) (i j : nat) : string :=
  str_take (j - i) (str_drop i s).

(** [c * n]: empty when [n <= 0]. *)
Definition str_repeat (c : ascii) (n : Z) : string :=
  string_of_list_ascii (repeat c (Z.to_nat n)).

(** ["".join(l)] *)
Definition str_join (l : list string) : string :=
  foldr String.append EmptyString l.

(** [l[i]] with Python's index rules: a negative index counts from
    the end, anything outside [-len, len) raises. *)
Definition index {A} (l : list A) (i : Z) : outcome A :=
  let i' := (if i <? 0 then i + Z.of_nat (length l) else i)%Z in
  if (i' <? 0)%Z then Raise IndexError
  else match l !! Z.to_nat i' with
       | Some x => Ret x
       | None => Raise IndexError
       end.

(** [l[i:j]] for non-negative [i] and [j]. *)
Definition slice {A} (l : list A) (i j : nat) : list A :=
  take (j - i) (drop i l).

(** [t.index(x)] when [x in t]. *)
Fixpoint index_of (x : string) (t : list string) : option nat :=
  match t with
  | [] => None
  | y :: t' => if String.eqb x y then Some 0 else S <$> index_of x t'
  end.

End Py.

(** ** tokenizer.py *)

Definition Location : Type := option string * (Z * Z).

Record Token (K : Type) : Type := mkToken {
  kind : K;
  value : string;
  location : option Location
}.
Arguments mkToken {K} kind value location.
Arguments kind {K} t.
Arguments value {K} t.
Arguments location {K} t.

(** A compiled regular expression fragment, seen through the one thing
    the tokenizer asks of it: tried at offset [pos] of [code], it fails
    or it matches up to an end offset.  The whole text is an argument
    because anchors and look-behind read before [pos]. *)
Definition pattern : Type := string → nat → option nat.

Definition pattern_sound (rx : pattern) : Prop :=
  ∀ code pos e, rx code pos = Some e → pos ≤ e ≤ String.length code.

Definition pattern_nonempty (rx : pattern) : Prop :=
  ∀ code pos e, rx code pos = Some e → e ≠ pos.

(** The match object of [re]: [start()], [end()] and [lastgroup], the
    latter as the position of the alternative (the code names the
    groups ['a'], ['b'], ... in registration order, and [_assoc] maps
    these names to the kind and the post-processor). *)
Record Match : Type := mkMatch {
  m_start : nat;
  m_end : nat;
  lastgroup : nat
}.

Section Tokenizer.
Context {K : Type}.

Definition post_processor : Type := Token K → option (Token K).

Record Tokenizer : Type := mkTokenizer {
  _regexs : list pattern;
  _assoc : list (K * option post_processor);
  _regex : option (list pattern)
}.

(** [Tokenizer()] *)
Definition init : Tokenizer :=
  {| _regexs := []; _assoc := []; _regex := None |}.

(** [add] creates the kind object itself; here the fresh kind is the
    argument [k] and is also the value returned. *)
Definition add (self : Tokenizer) (k : K) (regex : pattern)
    (func : option post_processor) : Tokenizer * K :=
  ({| _regexs := _regexs self ++ [regex];
      _assoc := _assoc self ++ [(k, func)];
      _regex := _regex self |}, k).

(** The group names are the letters from ['a'] on, one for each rule:
    this is [finalize] for at most 26 rules, the number for which
    [re.compile] accepts the names. *)
Definition finalize (self : Tokenizer) : Tokenizer :=
  {| _regexs := _regexs self;
     _assoc := _assoc self;
     _regex := Some (_regexs self) |}.

(** The alternation ["(?P<a>..)|(?P<b>..)|.."] of at least one rule,
    tried at one offset: the first alternative that matches wins.  (The
    pattern of no rule at all is dealt with in [tokenize].) *)
Fixpoint first_alt (alts : list pattern) (code : string) (pos key : nat)
    : option (nat * nat) :=
  match alts with
  | [] => None
  | rx :: alts' =>
      match rx code pos with
      | Some e => Some (key, e)
      | None => first_alt alts' code pos (S key)
      end
  end.

(** [regex.search(code, pos)]: the leftmost offset from [pos] on, up
    to and including the end of the text, where the alternation
    matches; [n] counts the offsets still to try. *)
Fixpoint search_from (alts : list pattern) (code : string) (pos n : nat)
    : option Match :=
  match n with
  | O => None
  | S n' =>
      match first_alt alts code pos 0 with
      | Some (key, e) => Some (mkMatch pos e key)
      | None => search_from alts code (S pos) n'
      end
  end.

Definition search (alts : list pattern) (code : string) (pos : nat)
    : option Match :=
  let pos := Nat.min pos (String.length code) in
  search_from alts code pos (S (String.length code) - pos).

Fixpoint tokenize_loop (self : Tokenizer) (alts : list pattern)
    (code : string) (file_name : option string) (create_locations : bool)
    (fuel start : nat) (tokens : list (Token K))
    : outcome (list (Token K)) :=
  match fuel with
  | O => OutOfFuel
  | S fuel' =>
      match search alts code start with
      | None => Ret tokens
      | Some m =>
          let lexpos := (Z.of_nat start, (Z.of_nat (m_end m) - 1)%Z) in
          let start := m_end m in
          let key := lastgroup m in
          match _assoc self !! key with
          | None => Raise KeyError
          | Some (k, func) =>
              let value := Py.str_slice code (m_start m) (m_end m) in
              let location :=
                if create_locations then Some (file_name, lexpos)
                else None in
              let token := mkToken k value location in
              let token :=
                match func with
                | Some f => f token
                | None => Some token
                end in
              let tokens :=
                match token with
                | Some t => tokens ++ [t]
                | None => tokens
                end in
              tokenize_loop self alts code file_name create_locations
                fuel' start tokens
          end
      end
  end.

(** [self._regex] is [None] until [finalize]: [None.search] raises.
    A [finalize] before any [add] compiles the empty pattern: its first
    search matches the empty string at offset 0 in no group, [lastgroup]
    is [None], and [self._assoc[None]] raises. *)
Definition tokenize (self : Tokenizer) (fuel : nat) (code : string)
    (file_name : option string) (create_locations : bool)
    : outcome (list (Token K)) :=
  match _regex self with
  | None => Raise AttributeError
  | Some [] => Raise KeyError
  | Some alts =>
      tokenize_loop self alts code file_name create_locations fuel 0 []
  end.

(** *** TokenStream *)

Record TokenStream : Type := mkStream {
  _tokens : list (Token K);
  _idx : nat
}.

Definition stream_of (tokens : list (Token K)) : TokenStream :=
  {| _tokens := tokens; _idx := 0 |}.

Definition eof (self : TokenStream) : bool :=
  negb (_idx self <? length (_tokens self)).

Definition idx (self : TokenStream) : nat := _idx self.

Definition current (self : TokenStream) : outcome (Token K) :=
  Py.index (_tokens self) (Z.of_nat (_idx self)).

Definition peek (self : TokenStream) (offset : Z) : outcome (Token K) :=
  Py.index (_tokens self) (Z.of_nat (_idx self) + offset).

Definition advance (self : TokenStream) : TokenStream :=
  {| _tokens := _tokens self; _idx := S (_idx self) |}.

Definition pop (self : TokenStream) : option (Token K) * TokenStream :=
  if eof self then (None, self)
  else (_tokens self !! _idx self, advance self).

Definition slice (self : TokenStream) (start end_ : nat) : list (Token K) :=
  Py.slice (_tokens self) start end_.

Context `{EqDecision K}.

(** [any(token.kind == kind for kind in kinds)] *)
Definition kind_in (t : Token K) (kinds : list K) : bool :=
  existsb (λ k, bool_decide (kind t = k)) kinds.

(** The loops of [skip_while] and [skip_until] advance the cursor by
    one per round and stop at [eof], so the number of tokens left
    bounds the rounds.  Short of [eof] the cursor is a valid position,
    and the lookup of [self._tokens[self._idx]] finds a token. *)
Fixpoint skip_while_loop (kinds : list K) (rounds : nat)
    (self : TokenStream) : TokenStream :=
  match rounds with
  | O => self
  | S rounds' =>
      if eof self then self
      else match _tokens self !! _idx self with
           | None => self
           | Some t =>
               if negb (kind_in t kinds) then self
               else skip_while_loop kinds rounds' (advance self)
           end
  end.

Definition skip_while (self : TokenStream) (kinds : list K)
    : nat * TokenStream :=
  let self := skip_while_loop kinds
                (length (_tokens self) - _idx self) self in
  (_idx self, self).

Fixpoint skip_until_loop (kinds : list K) (rounds : nat)
    (self : TokenStream) : TokenStream :=
  match rounds with
  | O => self
  | S rounds' =>
      if eof self then self
      else match _tokens self !! _idx self with
           | None => self
           | Some t =>
               if kind_in t kinds then self
               else skip_until_loop kinds rounds' (advance self)
           end
  end.

Definition skip_until (self : TokenStream) (kinds : list K)
    : nat * TokenStream :=
  let self := skip_until_loop kinds
                (length (_tokens self) - _idx self) self in
  (_idx self, self).

End Tokenizer.
Arguments Tokenizer K : clear implicits.
Arguments TokenStream K : clear implicits.
Arguments post_processor K : clear implicits.

(** *** describe_location *)

Definition nl : string := String "010"%char EmptyString.

(** The line boundaries of [str.splitlines] among the characters below
    256. *)
Definition is_linebreak (c : ascii) : bool :=
  let n := nat_of_ascii c in
  (n =? 10) || (n =? 13) || (n =? 11) || (n =? 12)
  || (n =? 28) || (n =? 29) || (n =? 30) || (n =? 133).

(** [cur] is the line being read; [after_cr] says the previous character
    was a carriage return, whose line feed belongs to the same break. *)
Fixpoint splitlines_go (s cur : string) (after_cr : bool) : list string :=
  match s with
  | EmptyString => if String.eqb cur "" then [] else [cur]
  | String c s' =>
      if after_cr && (nat_of_ascii c =? 10) then splitlines_go s' cur false
      else if is_linebreak c then
        cur :: splitlines_go s' "" (nat_of_ascii c =? 13)
      else splitlines_go s' (cur +:+ String c "") false
  end.

Definition splitlines (s : string) : list string := splitlines_go s "" false.

(** ["%s" % file_name] *)
Definition str_of_name (file_name : option string) : string :=
  match file_name with
  | Some f => f
  | None => "None"
  end.

Section DescribeLocation.
(** [vunit.ostools.file_exists] and [vunit.ostools.read_file]. *)
Variable file_exists : option string → bool.
Variable read_file : option string → string.

Definition underline (lstart lend : nat) (start end_ : Z) : string :=
  Py.str_repeat " " (start - Z.of_nat lstart)
  +:+ Py.str_repeat "~" (Z.min (Z.of_nat lend - 1) end_ - start + 1).

(** The [for] loop over [enumerate(contents.splitlines())]; falling
    out of it the function returns [None]. *)
Fixpoint describe_lines (file_name : option string) (start end_ : Z)
    (lines : list string) (lineno count : nat) : option string :=
  match lines with
  | [] => None
  | line :: lines' =>
      let lstart := count in
      let lend := lstart + String.length line in
      if ((Z.of_nat lstart <=? start) && (start <=? Z.of_nat lend))%Z then
        let retval :=
          "from " +:+ str_of_name file_name +:+ " line "
          +:+ pretty (lineno + 1) +:+ ":" +:+ nl in
        let retval := retval +:+ (line +:+ nl) in
        let retval := retval +:+ underline lstart lend start end_ in
        Some retval
      else
        describe_lines file_name start end_ lines' (S lineno) (lend + 1)
  end.

Definition describe_location (location : option Location) : option string :=
  match location with
  | None => Some "Unknown location"
  | Some (file_name, (start, end_)) =>
      if negb (file_exists file_name) then
        Some ("Unknown location in " +:+ str_of_name file_name)
      else
        let contents := read_file file_name in
        describe_lines file_name start end_ (splitlines contents) 0 0
  end.

End DescribeLocation.

(** [describe_location] as a call.  [file_exists] and [read_file] are
    functions of [vunit.ostools], a module that is not part of the
    sources at hand; a call of either can raise (a file name that is
    [None], a file that cannot be read).  [describe_location] above is
    the function of what the two calls return: it calls [file_exists]
    once and, when the file exists, [read_file] once. *)
Section DescribeLocationCall.
Variable file_exists : option string → outcome bool.
Variable read_file : option string → outcome string.

Definition describe_location_call (location : option Location)
    : outcome (option string) :=
  match location with
  | None => Ret (describe_location (λ _, false) (λ _, "") location)
  | Some (file_name, _) =>
      found ← file_exists file_name;
      if negb found then
        Ret (describe_location (λ _, false) (λ _, "") location)
      else
        contents ← read_file file_name;
        Ret (describe_location (λ _, true) (λ _, contents) location)
  end.

End DescribeLocationCall.

(** ** verilog/preprocess.py *)

(** Modelled from the spec: the token kinds of
    [vunit.parsing.verilog.tokenizer], a module the preprocessor imports
    and that is not part of the sources at hand.  The preprocessor
    compares kinds with the nine it names; every other kind of that
    tokenizer is an [OTHER] with its display name. *)
Inductive vkind : Set :=
  | PREPROCESSOR
  | WHITESPACE
  | NEWLINE
  | IDENTIFIER
  | STRING
  | LPAR
  | RPAR
  | EQUAL
  | COMMA
  | OTHER (name : string).

#[global] Instance vkind_eq_dec : EqDecision vkind.
Proof. solve_decision. Defined.

Abbreviation VToken := (Token vkind).
Abbreviation VStream := (TokenStream vkind).

Definition is_kind (t : VToken) (k : vkind) : bool :=
  bool_decide (kind t = k).

Record Macro : Type := mkMacro {
  name : string;
  tokens : list VToken;
  args : list string;
  defaults : gmap string (list VToken)
}.

(** [Macro(name)] *)
Definition Macro_of_name (name : string) : Macro :=
  {| name := name; tokens := []; args := []; defaults := ∅ |}.

Definition num_args (self : Macro) : nat := length (args self).

(** The [for] loop of [Macro.expand].  [Py.index_of] answers both
    [token.value in self.args] and [self.args.index(token.value)], and
    [values !! idx] is [None] exactly when [idx >= len(values)]. *)
Fixpoint expand_loop (self : Macro) (values : list (list VToken))
    (body : list VToken) (tokens : list VToken) : list VToken :=
  match body with
  | [] => tokens
  | token :: body' =>
      match is_kind token IDENTIFIER, Py.index_of (value token) (args self) with
      | true, Some idx =>
          match values !! idx with
          | None =>
              match defaults self !! value token with
              | None => []
              | Some value => expand_loop self values body' (tokens ++ value)
              end
          | Some value => expand_loop self values body' (tokens ++ value)
          end
      | _, _ => expand_loop self values body' (tokens ++ [token])
      end
  end.

Definition expand (self : Macro) (values : list (list VToken)) : list VToken :=
  expand_loop self values (tokens self) [].

(** The [while] loop of [_parse_macro_actuals]: every round pops one
    token, so the tokens left bound the rounds. *)
Fixpoint actuals_loop (rounds : nat) (stream : VStream) (token : VToken)
    (value : list VToken) (values : list (list VToken))
    : option (list (list VToken)) * VStream :=
  if is_kind token RPAR then (Some (values ++ [value]), stream)
  else
    match rounds with
    | O => (None, stream)
    | S rounds' =>
        let '(value, values) :=
          if is_kind token COMMA then ([], values ++ [value])
          else (value ++ [token], values) in
        let '(token, stream) := pop stream in
        match token with
        | None => (None, stream)
        | Some token => actuals_loop rounds' stream token value values
        end
    end.

Definition _parse_macro_actuals (stream : VStream)
    : option (list (list VToken)) * VStream :=
  let '(token, stream) := pop stream in
  match token with
  | None => (None, stream)
  | Some token =>
      if negb (is_kind token LPAR) then (None, stream)
      else
        let '(token, stream) := pop stream in
        match token with
        | None => (None, stream)
        | Some token =>
            actuals_loop (S (length (_tokens stream))) stream token [] []
        end
  end.

Definition expand_from_stream (self : Macro) (stream : VStream)
    : list VToken * VStream :=
  if num_args self =? 0 then (expand self [], stream)
  else
    match _parse_macro_actuals stream with
    | (None, stream) => ([], stream)
    | (Some values, stream) => (expand self values, stream)
    end.

(** The parameter list of a [`define]: the [while] loop of [define].
    A round that finds the stream exhausted makes [define] return
    [None]; every other round pops at least one token. *)
Fixpoint define_args (rounds : nat) (stream : VStream) (token : VToken)
    (args : list string) (defaults : gmap string (list VToken))
    : option (list string * gmap string (list VToken)) * VStream :=
  if is_kind token RPAR then (Some (args, defaults), stream)
  else
    match rounds with
    | O => (None, stream)
    | S rounds' =>
        if is_kind token IDENTIFIER then
          let argname := value token in
          let args := args ++ [argname] in
          let '(token, stream) := pop stream in
          match token with
          | None => (None, stream)
          | Some token =>
              if is_kind token EQUAL then
                let '(token, stream) := pop stream in
                (* [defaults[argname] = [token]]: when this pop finds no
                   token the next one finds none either and the
                   directive is given up, so the entry is never read *)
                let defaults :=
                  match token with
                  | Some token => <[argname := [token]]> defaults
                  | None => defaults
                  end in
                let '(token, stream) := pop stream in
                match token with
                | None => (None, stream)
                | Some token => define_args rounds' stream token args defaults
                end
              else define_args rounds' stream token args defaults
          end
        else
          let '(token, stream) := pop stream in
          match token with
          | None => (None, stream)
          | Some token => define_args rounds' stream token args defaults
          end
    end.

Section Define.
(** [file_exists] and [read_file] of [vunit.ostools], which
    [describe_location] calls. *)
Variable file_exists : option string → outcome bool.
Variable read_file : option string → outcome string.

(** [define]: the local variables [args] and [defaults] are assigned on
    two of the three branches on the token after the name; reading them
    unassigned raises.  The two warnings have a call of
    [describe_location] as argument, which is evaluated before the
    warning is logged and can raise. *)
Definition define (define_token : VToken) (stream : VStream)
    : outcome (option Macro * VStream) :=
  let '(_, stream) := skip_while stream [WHITESPACE] in
  let '(name_token, stream) := pop stream in
  match name_token with
  | None =>
      _ ← describe_location_call file_exists read_file
            (location define_token);
      Ret (None, stream)
  | Some name_token =>
      if is_kind name_token NEWLINE then
        _ ← describe_location_call file_exists read_file
              (location define_token);
        Ret (None, stream)
      else if negb (is_kind name_token IDENTIFIER) then
        _ ← describe_location_call file_exists read_file
              (location name_token);
        Ret (None, stream)
      else
        let name := value name_token in
        let '(token, stream) := pop stream in
        match token with
        | None => Ret (Some (Macro_of_name name), stream)
        | Some token =>
            let '(bound, stream) :=
              if is_kind token WHITESPACE || is_kind token NEWLINE then
                (Some (Some ([], ∅)), stream)
              else if is_kind token LPAR then
                match define_args (S (length (_tokens stream))) stream token
                        [] ∅ with
                | (None, stream) => (None, stream)
                | (Some ad, stream) => (Some (Some ad), stream)
                end
              else (Some None, stream) in
            match bound with
            | None => Ret (None, stream)
            | Some locals =>
                let '(_, stream) := skip_while stream [WHITESPACE] in
                let start := idx stream in
                let '(end_, stream) := skip_until stream [NEWLINE] in
                let stream :=
                  if negb (eof stream) then snd (pop stream) else stream in
                match locals with
                | None => Raise UnboundLocalError
                | Some (args, defaults) =>
                    Ret (Some {| name := name;
                                 tokens := slice stream start end_;
                                 args := args;
                                 defaults := defaults |}, stream)
                end
            end
        end
  end.

End Define.

(** [os.path.join] for two POSIX paths. *)
Definition starts_with_sep (s : string) : bool :=
  match s with
  | String c _ => Ascii.eqb c "/"
  | EmptyString => false
  end.

Fixpoint ends_with_sep (s : string) : bool :=
  match s with
  | EmptyString => false
  | String c EmptyString => Ascii.eqb c "/"
  | String _ s' => ends_with_sep s'
  end.

Definition join (a b : string) : string :=
  if starts_with_sep b then b
  else if String.eqb a "" || ends_with_sep a then a +:+ b
  else a +:+ "/" +:+ b.

Section Preprocess.
(** [file_exists] and [read_file] of [vunit.ostools], as [define] hands
    them to [describe_location]. *)
Variable file_exists : option string → outcome bool.
Variable read_file : option string → outcome string.
(** [os.path.exists]; opening a file and reading all of it, which
    raises for a path that exists and cannot be read (a directory, a
    file without permission); and [tokenize] of the Verilog tokenizer
    module. *)
Variable exists_ : string → bool.
Variable read : string → outcome string.
Variable tokenize : string → list VToken.

(** The argument of an [`include]: the file name, or [None] where the
    code logs and goes on to the next token. *)
Definition include_argument (defines : gmap string Macro) (stream : VStream)
    : option string * VStream :=
  let '(_, stream) := skip_while stream [WHITESPACE] in
  let '(tok, stream) := pop stream in
  match tok with
  | None => (None, stream)
  | Some tok =>
      if is_kind tok PREPROCESSOR then
        match defines !! value tok with
        | None => (None, stream)
        | Some macro =>
            let '(expanded_tokens, stream) := expand_from_stream macro stream in
            match expanded_tokens with
            | [] => (None, stream)
            | first :: _ =>
                if negb (is_kind first STRING) then (None, stream)
                else (Some (value first), stream)
            end
        end
      else if is_kind tok STRING then (Some (value tok), stream)
      else (None, stream)
  end.

(** The [for ... else] over [include_paths]: the first joined path
    that exists, [None] when the loop ends without [break]. *)
Fixpoint find_include (include_paths : list string) (file_name : string)
    : option string :=
  match include_paths with
  | [] => None
  | include_path :: include_paths' =>
      let full_name := join include_path file_name in
      if exists_ full_name then Some full_name
      else find_include include_paths' file_name
  end.

(** The [while] loop of [preprocess].  [defines] and [included_files]
    are the caller's objects, mutated in place: they come back with
    the result.  The path of an included file is entered in the log
    before the file is opened.  Every round and every nested call costs
    one unit of fuel. *)
Fixpoint preprocess_loop (fuel : nat) (include_paths : list string)
    (stream : VStream) (defines : gmap string Macro)
    (included_files : list string) (result : list VToken)
    : outcome (list VToken * gmap string Macro * list string) :=
  match fuel with
  | O => OutOfFuel
  | S fuel' =>
      if eof stream then Ret (result, defines, included_files)
      else
        let '(token, stream) := pop stream in
        match token with
        | None => Raise AttributeError
        | Some token =>
            if negb (is_kind token PREPROCESSOR) then
              preprocess_loop fuel' include_paths stream defines
                included_files (result ++ [token])
            else
              '(defines, stream) ←
                (if String.eqb (value token) "define" then
                   '(macro, stream) ←
                     define file_exists read_file token stream;
                   match macro with
                   | Some macro =>
                       Ret (<[name macro := macro]> defines, stream)
                   | None => Ret (defines, stream)
                   end
                 else Ret (defines, stream));
              if String.eqb (value token) "include" then
                match include_argument defines stream with
                | (None, stream) =>
                    preprocess_loop fuel' include_paths stream defines
                      included_files result
                | (Some file_name, stream) =>
                    match find_include include_paths file_name with
                    | None =>
                        preprocess_loop fuel' include_paths stream defines
                          included_files result
                    | Some full_name =>
                        let included_files := included_files ++ [full_name] in
                        code ← read full_name;
                        let included_tokens := tokenize code in
                        '(included, defines, included_files) ←
                          preprocess_loop fuel' include_paths
                            (stream_of included_tokens) defines
                            included_files [];
                        preprocess_loop fuel' include_paths stream defines
                          included_files (result ++ included)
                    end
                end
              else
                match defines !! value token with
                | Some macro =>
                    let '(expanded, stream) := expand_from_stream macro stream in
                    preprocess_loop fuel' include_paths stream defines
                      included_files (result ++ expanded)
                | None =>
                    preprocess_loop fuel' include_paths stream defines
                      included_files result
                end
        end
  end.

Definition preprocess (fuel : nat) (tokens : list VToken)
    (defines : gmap string Macro) (include_paths : list string)
    (included_files : list string)
    : outcome (list VToken * gmap string Macro * list string) :=
  preprocess_loop fuel include_paths (stream_of tokens) defines
    included_files [].

End Preprocess.

(** ** The specification's wording, as definitions *)

Section Unmatched.
Variable alts : list pattern.
Variable code : string.

(** The text "minus any characters matching no rule": walking the
    text from the left, a character is kept when it lies inside the
    match that the rules find at the first offset no earlier match
    covers, and removed otherwise.  [rest] is the text from offset
    [pos] on, [keep_until] the end of the match being copied. *)
Fixpoint strip_walk (rest : string) (pos keep_until : nat) : string :=
  match rest with
  | EmptyString => EmptyString
  | String c rest' =>
      let keep_until :=
        if pos <? keep_until then keep_until
        else match first_alt alts code pos 0 with
             | Some (_, e) => e
             | None => keep_until
             end in
      if pos <? keep_until then String c (strip_walk rest' (S pos) keep_until)
      else strip_walk rest' (S pos) keep_until
  end.

Definition strip_unmatched : string := strip_walk code 0 0.

End Unmatched.

(** What one body token stands for in an expansion, in the words of the
    specification: a parameter name is replaced by the actual at its
    position when the actuals cover it, else by its default when it has
    one, else the expansion is given up ([None]); any other token
    stands for itself. *)
Definition substitute (self : Macro) (values : list (list VToken))
    (token : VToken) : option (list VToken) :=
  if is_kind token IDENTIFIER then
    match Py.index_of (value token) (args self) with
    | Some i =>
        if i <? length values then values !! i
        else defaults self !! value token
    | None => Some [token]
    end
  else Some [token].

(** The offset at which line [lineno] starts when every earlier line is
    counted with one terminator character. *)
Definition line_start (lines : list string) (lineno : nat) : nat :=
  foldr (λ line n, String.length line + 1 + n) 0 (take lineno lines).

(** The three lines of a description whose underline has [n] tildes. *)
Definition description (file_name : option string) (lineno : nat)
    (line : string) (column : Z) (n : Z) : string :=
  "from " +:+ str_of_name file_name +:+ " line " +:+ pretty (lineno + 1)
  +:+ ":" +:+ nl +:+ line +:+ nl
  +:+ Py.str_repeat " " column +:+ Py.str_repeat "~" n.

(** ** Sample data *)

Module Sample.

(** *** A tokenizer with one rule, for [[0-9]+] *)

Fixpoint run_length (p : ascii → bool) (s : string) : nat :=
  match s with
  | String c s' => if p c then S (run_length p s') else 0
  | EmptyString => 0
  end.

(** One or more characters of a class, greedy. *)
Definition one_or_more (p : ascii → bool) : pattern := λ code pos,
  match run_length p (Py.str_drop pos code) with
  | O => None
  | S n => Some (pos + S n)
  end.

Definition is_digit (c : ascii) : bool :=
  (48 <=? nat_of_ascii c) && (nat_of_ascii c <=? 57).

Definition is_lower (c : ascii) : bool :=
  (97 <=? nat_of_ascii c) && (nat_of_ascii c <=? 122).

Definition numbers : Tokenizer string :=
  finalize (fst (add init "number" (one_or_more is_digit) None)).

Definition words_and_numbers : Tokenizer string :=
  let t := fst (add init "word" (one_or_more is_lower) None) in
  let t := fst (add t "number" (one_or_more is_digit) None) in
  finalize t.

(** Zero or more characters of a class, greedy: a rule that also
    matches the empty string, as [[0-9]*] does. *)
Definition zero_or_more (p : ascii → bool) : pattern := λ code pos,
  if pos <=? String.length code then
    Some (pos + run_length p (Py.str_drop pos code))
  else None.

Definition maybe_numbers : Tokenizer string :=
  finalize (fst (add init "number" (zero_or_more is_digit) None)).

(** *** Token lists of the Verilog tokenizer *)

Definition T (k : vkind) (v : string) : VToken := mkToken k v None.
Definition sp : VToken := T WHITESPACE " ".
Definition INTEGER : vkind := OTHER "integer".

(** [`define foo(arg1, arg2) arg1 arg2] and, on the next line,
    [`foo(1)] *)
Definition two_args_one_actual : list VToken :=
  [T PREPROCESSOR "define"; sp; T IDENTIFIER "foo"; T LPAR "(";
   T IDENTIFIER "arg1"; T COMMA ","; sp; T IDENTIFIER "arg2"; T RPAR ")";
   sp; T IDENTIFIER "arg1"; sp; T IDENTIFIER "arg2"; T NEWLINE nl;
   T PREPROCESSOR "foo"; T LPAR "("; T INTEGER "1"; T RPAR ")"].

(** [`define foo(arg1, arg2=default) arg1 arg2] and, on the next line,
    [`foo(1)] *)
Definition default_for_second : list VToken :=
  [T PREPROCESSOR "define"; sp; T IDENTIFIER "foo"; T LPAR "(";
   T IDENTIFIER "arg1"; T COMMA ","; sp; T IDENTIFIER "arg2"; T EQUAL "=";
   T IDENTIFIER "default"; T RPAR ")";
   sp; T IDENTIFIER "arg1"; sp; T IDENTIFIER "arg2"; T NEWLINE nl;
   T PREPROCESSOR "foo"; T LPAR "("; T INTEGER "1"; T RPAR ")"].

(** [1 default] *)
Definition one_default : list VToken :=
  [T INTEGER "1"; sp; T IDENTIFIER "default"].

(** The macro that the first line of [default_for_second] defines. *)
Definition foo_with_default : Macro :=
  {| name := "foo";
     tokens := [T IDENTIFIER "arg1"; sp; T IDENTIFIER "arg2"];
     args := ["arg1"; "arg2"];
     defaults := {[ "arg2" := [T IDENTIFIER "default"] ]} |}.

Definition foo_without_default : Macro :=
  {| name := "foo";
     tokens := [T IDENTIFIER "arg1"; sp; T IDENTIFIER "arg2"];
     args := ["arg1"; "arg2"];
     defaults := ∅ |}.

(** [`define bar "abc"]: a macro with no parameter. *)
Definition bar : Macro :=
  {| name := "bar"; tokens := [T STRING "abc"]; args := [];
     defaults := ∅ |}.

(** [`define foo"abc"]: the name is followed at once by a string. *)
Definition define_name_then_string : list VToken :=
  [T PREPROCESSOR "define"; sp; T IDENTIFIER "foo"; T STRING "abc"].

(** [`timescale] *)
Definition unknown_directive : list VToken := [T PREPROCESSOR "timescale"].

(** [hello `timescale hey] *)
Definition around_unknown_directive : list VToken :=
  [T IDENTIFIER "hello"; sp; T PREPROCESSOR "timescale"; sp;
   T IDENTIFIER "hey"].

(** *** A file system with one file, [/out/include.svh] *)

Definition exists_ (path : string) : bool :=
  String.eqb path "/out/include.svh".

Definition read (path : string) : outcome string :=
  if String.eqb path "/out/include.svh" then Ret "hello hey"
  else Raise OSError.

(** [vunit.ostools] on that file system, for the file names of
    locations: none of them is a file, and a file name that is [None]
    makes either call raise. *)
Definition file_exists (path : option string) : outcome bool :=
  match path with
  | Some _ => Ret false
  | None => Raise TypeError
  end.

Definition read_file (path : option string) : outcome string :=
  match path with
  | Some _ => Raise OSError
  | None => Raise TypeError
  end.

(** The Verilog tokenizer on the one text that is read. *)
Definition tokenize (code : string) : list VToken :=
  if String.eqb code "hello hey" then
    [T IDENTIFIER "hello"; sp; T IDENTIFIER "hey"]
  else [].

(** [`include "include.svh"] followed by [;] *)
Definition include_then_semicolon : list VToken :=
  [T PREPROCESSOR "include"; sp; T STRING "include.svh";
   T (OTHER "semi_colon") ";"].

Definition no_file (path : option string) : bool := false.
Definition any_file (path : option string) : bool := true.

(** Two lines, [ab] and [cd]. *)
Definition ab_cd (path : option string) : string := "ab" +:+ nl +:+ "cd".

(** One empty line. *)
Definition empty_line (path : option string) : string := nl.

(** One line, [S]. *)
Definition one_char_line (path : option string) : string := "S" +:+ nl.

(** *** A file that includes itself: [/inc/a.v] holds [`include "a.v"] *)

Definition self_exists (path : string) : bool := String.eqb path "/inc/a.v".

Definition self_code : string :=
  "`include " +:+ String "034"%char "a.v" +:+ String "034"%char "".

Definition self_read (path : string) : outcome string := Ret self_code.

Definition self_tokenize (code : string) : list VToken :=
  [T PREPROCESSOR "include"; sp; T STRING "a.v"].

(** *** A relative search directory: [inc/x.v] holds [hello hey] *)



(** *** A directory where a file is looked for: [/out/x.v] exists and
    cannot be opened for reading *)

Definition dir_exists (path : string) : bool := String.eqb path "/out/x.v".

Definition dir_read (path : string) : outcome string := Raise OSError.

(** [`include "x.v"] *)
Definition include_x : list VToken :=
  [T PREPROCESSOR "include"; sp; T STRING "x.v"].

(** A [`define] directive with a location whose file name is [None], as
    [tokenize] makes it when it is given locations and no file name. *)
Definition located_define : VToken :=
  mkToken PREPROCESSOR "define" (Some (None, (0, 6)%Z)).

(** [`define foo], then the lines [bar] and [baz] *)
Definition define_flag_then_lines : list VToken :=
  [T PREPROCESSOR "define"; sp; T IDENTIFIER "foo"; T NEWLINE nl;
   T IDENTIFIER "bar"; T NEWLINE nl; T IDENTIFIER "baz"].

(** [`define define x] and, on the next line, [`define] *)
Definition define_named_define : list VToken :=
  [T PREPROCESSOR "define"; sp; T IDENTIFIER "define"; sp;
   T IDENTIFIER "x"; T NEWLINE nl; T PREPROCESSOR "define"].

(** [`define include x] and, on the next line, [`include] *)
Definition define_named_include : list VToken :=
  [T PREPROCESSOR "define"; sp; T IDENTIFIER "include"; sp;
   T IDENTIFIER "x"; T NEWLINE nl; T PREPROCESSOR "include"].

(** [`include `bar] with [bar] defined as ["abc"] *)
Definition include_through_macro : list VToken :=
  [T PREPROCESSOR "include"; sp; T PREPROCESSOR "bar"; T NEWLINE nl].

(** [`define foo bar "abc"] and, on the next line, [`foo] *)
Definition define_then_use : list VToken :=
  [T PREPROCESSOR "define"; sp; T IDENTIFIER "foo"; sp;
   T IDENTIFIER "bar"; sp; T STRING "abc"; T NEWLINE nl;
   T PREPROCESSOR "foo"].

End Sample.

(** Spans that follow one another without a gap: the first begins at
    [start], each next one right after the end of the one before. *)
Fixpoint spans_chain {K : Type} (file_name : option string) (start : Z)
    (toks : list (Token K)) : Prop :=
  match toks with
  | [] => True
  | t :: toks' =>
      ∃ e, location t = Some (file_name, (start, e))
           ∧ spans_chain file_name (e + 1) toks'
  end.

(** [s'] is [s] after some tokens were consumed: the same token list,
    the cursor not moved back, and not moved past the end if it was not
    there already. *)
Definition consumed {K : Type} (s s' : TokenStream K) : Prop :=
  _tokens s' = _tokens s
  ∧ _idx s ≤ _idx s'
  ∧ (_idx s ≤ length (_tokens s) → _idx s' ≤ length (_tokens s)).

(** The tokenizers that a program can hold: made by [Tokenizer()] and
    changed by [add] and [finalize] only. *)
Inductive constructed {K : Type} : Tokenizer K → Prop :=
  | constructed_init : constructed init
  | constructed_add self k regex func :
      constructed self → constructed (fst (add self k regex func))
  | constructed_finalize self :
      constructed self → constructed (finalize self).

(** * Proofs *)

(** ** Python strings *)

Lemma str_drop_length n s : String.length (Py.str_drop n s) = String.length s - n.
Proof.
  revert s; induction n as [|n IH]; intros [|c s]; simpl; auto with lia.
Qed.

Lemma str_drop_all n s : String.length s ≤ n → Py.str_drop n s = "".
Proof.
  revert s; induction n as [|n IH]; intros [|c s]; simpl; intros; try done; try lia.
  apply IH; lia.
Qed.

Lemma str_drop_S n s :
  n < String.length s →
  ∃ c, String.get n s = Some c ∧ Py.str_drop n s = String c (Py.str_drop (S n) s).
Proof.
  revert s; induction n as [|n IH]; intros [|c s]; simpl; try lia.
  - intros _. exists c. by destruct s.
  - intros Hn. destruct (IH s) as (c' & ? & ?); [lia|]. exists c'. done.
Qed.

Lemma str_slice_empty s i : Py.str_slice s i i = "".
Proof. unfold Py.str_slice. rewrite Nat.sub_diag. by destruct (Py.str_drop i s). Qed.

Lemma str_slice_S s i j c :
  i < j → Py.str_drop i s = String c (Py.str_drop (S i) s) →
  Py.str_slice s i j = String c (Py.str_slice s (S i) j).
Proof.
  intros Hij Hd. unfold Py.str_slice. rewrite Hd.
  replace (j - i) with (S (j - S i)) by lia. done.
Qed.

Lemma append_cons c (s t : string) : String c s +:+ t = String c (s +:+ t).
Proof. reflexivity. Qed.


Lemma append_nil_r (s : string) : s +:+ "" = s.
Proof. induction s as [|c s IH]; [done|]. by rewrite append_cons, IH. Qed.

Lemma append_assoc (s1 s2 s3 : string) : (s1 +:+ s2) +:+ s3 = s1 +:+ (s2 +:+ s3).
Proof. induction s1 as [|c s1 IH]; [done|]. by rewrite !append_cons, IH. Qed.

Lemma str_join_app l1 l2 : Py.str_join (l1 ++ l2) = Py.str_join l1 +:+ Py.str_join l2.
Proof.
  induction l1 as [|s l1 IH]; simpl; [done|]. by rewrite IH, append_assoc.
Qed.

#[local] Arguments Py.str_drop : simpl never.
#[local] Arguments Py.str_slice : simpl never.

Section TokenizerProofs.
Context {K : Type}.
Implicit Types (self : Tokenizer K) (alts : list pattern) (code : string).

Lemma first_alt_sound alts code pos key0 key e :
  Forall pattern_sound alts →
  first_alt alts code pos key0 = Some (key, e) →
  pos ≤ e ≤ String.length code.
Proof.
  intros Hs; revert key0; induction Hs as [|rx alts Hrx _ IH]; intros key0; simpl; [done|].
  destruct (rx code pos) as [e'|] eqn:E.
  - intros [= <- <-]. eauto.
  - apply IH.
Qed.

Lemma first_alt_key alts code pos key0 key e :
  first_alt alts code pos key0 = Some (key, e) →
  key0 ≤ key < key0 + length alts.
Proof.
  revert key0; induction alts as [|rx alts IH]; intros key0; simpl; [done|].
  destruct (rx code pos).
  - intros [= <- <-]. lia.
  - intros H%IH. lia.
Qed.

Lemma first_alt_nonempty alts code pos key0 key e :
  Forall pattern_nonempty alts →
  first_alt alts code pos key0 = Some (key, e) → e ≠ pos.
Proof.
  intros Hs; revert key0; induction Hs as [|rx alts Hrx _ IH]; intros key0; simpl; [done|].
  destruct (rx code pos) as [e'|] eqn:E.
  - intros [= <- <-]. eauto.
  - apply IH.
Qed.

Lemma search_from_Some alts code pos n m :
  search_from alts code pos n = Some m →
  pos ≤ m_start m < pos + n
  ∧ first_alt alts code (m_start m) 0 = Some (lastgroup m, m_end m)
  ∧ ∀ q, pos ≤ q < m_start m → first_alt alts code q 0 = None.
Proof.
  revert pos; induction n as [|n IH]; intros pos; simpl; [done|].
  destruct (first_alt alts code pos 0) as [[key e]|] eqn:E.
  - intros [= <-]; simpl. split_and!; [lia|lia|done|intros; lia].
  - intros (? & ? & Hq)%IH. split_and!; [lia|lia|done|].
    intros q Hq'. destruct (decide (q = pos)) as [->|]; [done|]. apply Hq; lia.
Qed.

Lemma search_from_None alts code pos n :
  search_from alts code pos n = None →
  ∀ q, pos ≤ q < pos + n → first_alt alts code q 0 = None.
Proof.
  revert pos; induction n as [|n IH]; intros pos; simpl; [intros; lia|].
  destruct (first_alt alts code pos 0) as [[key e]|] eqn:E; [done|].
  intros H q Hq. destruct (decide (q = pos)) as [->|]; [done|].
  apply (IH _ H); lia.
Qed.

Lemma search_here alts code pos key e :
  pos ≤ String.length code →
  first_alt alts code pos 0 = Some (key, e) →
  search alts code pos = Some (mkMatch pos e key).
Proof.
  intros Hpos E. unfold search. rewrite Nat.min_l by done.
  replace (S (String.length code) - pos) with (S (String.length code - pos)) by lia.
  simpl. by rewrite E.
Qed.

(** *** The walk of the specification along one round of the loop *)

Lemma strip_walk_none alts code rest pos ku :
  ku ≤ pos →
  (∀ q, pos ≤ q < pos + String.length rest → first_alt alts code q 0 = None) →
  strip_walk alts code rest pos ku = "".
Proof.
  revert pos; induction rest as [|c rest IH]; intros pos Hku Hq; simpl; [done|].
  destruct (Nat.ltb_spec pos ku); [lia|].
  rewrite Hq by (simpl; lia).
  destruct (Nat.ltb_spec pos ku); [lia|].
  apply IH; [lia|]. intros q ?. apply Hq. simpl. lia.
Qed.

Lemma strip_walk_skip alts code pos p ku :
  ku ≤ pos → pos ≤ p ≤ String.length code →
  (∀ q, pos ≤ q < p → first_alt alts code q 0 = None) →
  strip_walk alts code (Py.str_drop pos code) pos ku
  = strip_walk alts code (Py.str_drop p code) p ku.
Proof.
  intros Hku [Hp Hlen]. remember (p - pos) as d eqn:Hd.
  revert pos Hku Hp Hd; induction d as [|d IH]; intros pos Hku Hp Hd Hq.
  - by replace p with pos by lia.
  - destruct (str_drop_S pos code) as (c & _ & ->); [lia|]. simpl.
    destruct (Nat.ltb_spec pos ku); [lia|].
    rewrite Hq by lia.
    destruct (Nat.ltb_spec pos ku); [lia|].
    apply IH; [lia..|]. intros q ?. apply Hq. lia.
Qed.

Lemma strip_walk_copy alts code q e :
  q ≤ e ≤ String.length code →
  strip_walk alts code (Py.str_drop q code) q e
  = Py.str_slice code q e +:+ strip_walk alts code (Py.str_drop e code) e e.
Proof.
  intros [Hq Hlen]. remember (e - q) as d eqn:Hd.
  revert q Hq Hd; induction d as [|d IH]; intros q Hq Hd.
  - replace q with e by lia. by rewrite str_slice_empty.
  - destruct (str_drop_S q code) as (c & _ & Hc); [lia|].
    rewrite (str_slice_S _ _ _ c) by (done || lia). rewrite Hc at 1. simpl.
    rewrite !(proj2 (Nat.ltb_lt q e)) by lia.
    rewrite append_cons. f_equal. apply IH; lia.
Qed.

Lemma strip_walk_match alts code p ku key e :
  ku ≤ p → p < e ≤ String.length code →
  first_alt alts code p 0 = Some (key, e) →
  strip_walk alts code (Py.str_drop p code) p ku
  = Py.str_slice code p e +:+ strip_walk alts code (Py.str_drop e code) e e.
Proof.
  intros Hku [Hp Hlen] E.
  destruct (str_drop_S p code) as (c & _ & Hc); [lia|].
  rewrite (str_slice_S _ _ _ c) by (done || lia). rewrite Hc at 1. simpl.
  rewrite (proj2 (Nat.ltb_ge p ku)), E by lia.
  rewrite !(proj2 (Nat.ltb_lt p e)) by lia.
  rewrite append_cons. f_equal. apply strip_walk_copy; lia.
Qed.

(** An empty match leaves the scan where it is: the loop goes round
    for ever. *)
Lemma tokenize_loop_stuck self alts code fn cl p key fuel acc :
  p ≤ String.length code →
  first_alt alts code p 0 = Some (key, p) →
  ¬ returns (tokenize_loop self alts code fn cl fuel p acc).
Proof.
  intros Hp E. revert acc; induction fuel as [|fuel IH]; intros acc [toks H]; simpl in H; [done|].
  rewrite (search_here _ _ _ _ _ Hp E) in H. simpl in H.
  destruct (_assoc self !! key) as [[k func]|]; [|done].
  eapply IH. by eexists.
Qed.

Lemma tokenize_loop_values self alts code fn cl fuel start acc toks :
  Forall pattern_sound alts →
  (∀ k f, (k, f) ∈ _assoc self → f = None) →
  start ≤ String.length code →
  tokenize_loop self alts code fn cl fuel start acc = Ret toks →
  Py.str_join (value <$> toks)
  = Py.str_join (value <$> acc)
    +:+ strip_walk alts code (Py.str_drop start code) start start.
Proof.
  intros Hs Hf. revert start acc; induction fuel as [|fuel IH]; intros start acc Hstart; simpl; [done|].
  destruct (search alts code start) as [m|] eqn:E.
  - unfold search in E. rewrite Nat.min_l in E by done.
    apply search_from_Some in E as (Hp & Ha & Hq).
    pose proof (first_alt_sound _ _ _ _ _ _ Hs Ha) as He.
    destruct (_assoc self !! lastgroup m) as [[k func]|] eqn:El; [|done].
    apply list_elem_of_lookup_2, Hf in El as ->.
    intros H. destruct (decide (m_end m = m_start m)) as [Hempty|Hne].
    + exfalso. rewrite Hempty in Ha.
      eapply (tokenize_loop_stuck self alts code fn cl (m_start m)); [lia|done|].
      rewrite Hempty in H. by eexists.
    + apply IH in H; [|lia]. rewrite H.
      rewrite fmap_app, str_join_app. simpl. rewrite append_nil_r, append_assoc.
      f_equal.
      rewrite (strip_walk_skip _ _ start (m_start m)) by (done || lia).
      by rewrite (strip_walk_match _ _ (m_start m) start (lastgroup m) (m_end m))
        by (done || lia).
  - intros [= <-]. unfold search in E. rewrite Nat.min_l in E by done.
    rewrite strip_walk_none; [by rewrite append_nil_r|done|].
    intros q Hq. apply (search_from_None _ _ _ _ E).
    rewrite str_drop_length in Hq. lia.
Qed.

Lemma tokenize_loop_returns self alts code fn cl fuel start acc :
  length alts ≤ length (_assoc self) →
  Forall pattern_sound alts →
  Forall pattern_nonempty alts →
  start ≤ String.length code →
  String.length code - start < fuel →
  returns (tokenize_loop self alts code fn cl fuel start acc).
Proof.
  intros Hlen Hs Hn. revert start acc; induction fuel as [|fuel IH]; intros start acc Hstart Hfuel; [lia|].
  simpl. destruct (search alts code start) as [m|] eqn:E; [|by eexists].
  unfold search in E. rewrite Nat.min_l in E by done.
  apply search_from_Some in E as (Hp & Ha & _).
  pose proof (first_alt_sound _ _ _ _ _ _ Hs Ha).
  pose proof (first_alt_nonempty _ _ _ _ _ _ Hn Ha).
  pose proof (first_alt_key _ _ _ _ _ _ Ha).
  destruct (_assoc self !! lastgroup m) as [[k func]|] eqn:El.
  - apply IH; lia.
  - apply lookup_ge_None in El. unfold post_processor in *. exfalso. lia.
Qed.

(** What the recorded spans are: they begin at offset 0 and follow one
    another without a gap, whatever was skipped before each match. *)
Lemma tokenize_loop_spans self alts code fn fuel start acc toks :
  (∀ k f, (k, f) ∈ _assoc self → f = None) →
  tokenize_loop self alts code fn true fuel start acc = Ret toks →
  ∃ new, toks = acc ++ new ∧ spans_chain fn (Z.of_nat start) new.
Proof.
  intros Hf. revert start acc; induction fuel as [|fuel IH]; intros start acc;
    simpl; [done|].
  destruct (search alts code start) as [m|].
  - destruct (_assoc self !! lastgroup m) as [[k func]|] eqn:El; [|done].
    apply list_elem_of_lookup_2, Hf in El as ->.
    intros (new & -> & Hnew)%IH. eexists (_ :: new). split.
    + by rewrite <- app_assoc.
    + simpl. eexists. split; [done|].
      by replace (Z.of_nat (m_end m) - 1 + 1)%Z with (Z.of_nat (m_end m)) by lia.
  - intros [= <-]. exists []. by rewrite app_nil_r.
Qed.

(** [tokenize] runs its loop when the tokenizer was finalized with at
    least one rule, and only then does it return. *)
Lemma tokenize_Some self alts fuel code fn cl :
  _regex self = Some alts → alts ≠ [] →
  tokenize self fuel code fn cl
  = tokenize_loop self alts code fn cl fuel 0 [].
Proof. unfold tokenize. intros -> Hne. by destruct alts. Qed.

Lemma tokenize_Ret self fuel code fn cl toks :
  tokenize self fuel code fn cl = Ret toks →
  ∃ alts, _regex self = Some alts ∧ alts ≠ []
          ∧ tokenize_loop self alts code fn cl fuel 0 [] = Ret toks.
Proof.
  unfold tokenize. destruct (_regex self) as [[|rx alts]|]; [done| |done].
  intros H. by exists (rx :: alts).
Qed.

Lemma tokenize_spans self fuel code fn toks :
  (∀ k f, (k, f) ∈ _assoc self → f = None) →
  tokenize self fuel code fn true = Ret toks →
  spans_chain fn 0 toks.
Proof.
  intros Hf (alts & _ & _ & H)%tokenize_Ret.
  by apply (tokenize_loop_spans _ _ _ _ _ _ _ _ Hf) in H as (new & -> & Hnew).
Qed.

Lemma constructed_lengths self :
  constructed self →
  length (_assoc self) = length (_regexs self)
  ∧ ∀ alts, _regex self = Some alts → length alts ≤ length (_regexs self).
Proof.
  induction 1 as [|self k regex func _ [IH1 IH2]|self _ [IH1 IH2]]; simpl.
  - done.
  - rewrite !length_app, IH1. split; [done|]. intros alts H%IH2. lia.
  - split; [done|]. by intros alts [= <-].
Qed.

(** C3: for a tokenizer that was finalized and whose rules have no
    post-processor, the values of the tokens that [tokenize] returns,
    concatenated, are the input text with the characters that no rule
    matched removed, in order.  [tokenize] does return when there is a
    rule and no rule matches the empty string; a rule that does makes
    the loop go round for ever on the spot, and a tokenizer finalized
    without any rule raises [KeyError]: in both cases nothing is
    returned.  The patterns are assumed to report ends inside the text,
    as [re] does. *)
Theorem tokenize_values_are_the_matched_text self alts code fn cl :
  constructed self →
  _regex self = Some alts →
  Forall pattern_sound alts →
  (∀ k f, (k, f) ∈ _assoc self → f = None) →
  (∀ fuel toks,
     tokenize self fuel code fn cl = Ret toks →
     Py.str_join (value <$> toks) = strip_unmatched alts code)
  ∧ (alts ≠ [] → Forall pattern_nonempty alts →
     ∃ toks, tokenize self (S (String.length code)) code fn cl = Ret toks)
  ∧ (alts = [] → ∀ fuel, tokenize self fuel code fn cl = Raise KeyError).
Proof.
  intros Hc Hr Hs Hf. split_and!.
  - intros fuel toks (alts' & Hr' & _ & H)%tokenize_Ret.
    rewrite Hr in Hr'. injection Hr' as <-.
    apply tokenize_loop_values in H; [|done|done|lia]. by rewrite H.
  - intros Hne Hn. rewrite (tokenize_Some _ _ _ _ _ _ Hr Hne).
    apply tokenize_loop_returns; try done; try lia.
    destruct (constructed_lengths _ Hc) as [-> Hl]. by apply Hl.
  - intros -> fuel. unfold tokenize. by rewrite Hr.
Qed.
End TokenizerProofs.

Lemma run_length_le p s : Sample.run_length p s ≤ String.length s.
Proof. induction s as [|c s IH]; simpl; [done|]. destruct (p c); lia. Qed.

Lemma one_or_more_sound p : pattern_sound (Sample.one_or_more p).
Proof.
  intros code pos e. unfold Sample.one_or_more.
  pose proof (run_length_le p (Py.str_drop pos code)) as H.
  rewrite str_drop_length in H.
  destruct (Sample.run_length p (Py.str_drop pos code)); [done|].
  intros [= <-]. lia.
Qed.

Lemma one_or_more_nonempty p : pattern_nonempty (Sample.one_or_more p).
Proof.
  intros code pos e. unfold Sample.one_or_more.
  destruct (Sample.run_length p (Py.str_drop pos code)); [done|].
  intros [= <-]. lia.
Qed.

Lemma tokenize_values_are_the_matched_text_witness :
  (∀ fuel toks,
     tokenize Sample.words_and_numbers fuel "ab 12;cd" None false = Ret toks →
     Py.str_join (value <$> toks) = "ab12cd")
  ∧ ∃ toks, tokenize Sample.words_and_numbers 9 "ab 12;cd" None false = Ret toks.
Proof.
  destruct (tokenize_values_are_the_matched_text Sample.words_and_numbers
    [Sample.one_or_more Sample.is_lower; Sample.one_or_more Sample.is_digit]
    "ab 12;cd" None false) as [H1 H2].
  - repeat constructor.
  - reflexivity.
  - repeat (apply Forall_cons_2; [apply one_or_more_sound|]). apply Forall_nil_2.
  - intros k f H. simpl in H.
    repeat (apply elem_of_cons in H as [[= -> ->]|H]; [done|]).
    by apply elem_of_nil in H.
  - split; [exact H1|]. apply (proj1 H2); [done|].
    repeat (apply Forall_cons_2; [apply one_or_more_nonempty|]). apply Forall_nil_2.
Defined.

(** C1, on the input that separates the code from the claim: one rule
    for [[0-9]+], the text [ab12], locations enabled.  The match of the
    only token begins at offset 2, after two skipped characters, and
    the span recorded is [(0, 3)]: it begins where the search began,
    not where the match begins. *)
Theorem location_starts_where_the_search_started :
  search [Sample.one_or_more Sample.is_digit] "ab12" 0 = Some (mkMatch 2 4 0)
  ∧ tokenize Sample.numbers 5 "ab12" (Some "fn.v") true
    = Ret [mkToken "number" "12" (Some (Some "fn.v", (0, 3)%Z))].
Proof. split; reflexivity. Qed.

(** ** The token stream *)

(** C10: when [cursor + offset] is negative but not below [-length],
    [peek offset] raises nothing and returns the token at position
    [length + cursor + offset]: the index counts back from the end of
    the token list. *)
Theorem peek_negative_counts_from_the_end {K} (self : TokenStream K) (offset : Z) :
  let len := Z.of_nat (length (_tokens self)) in
  let i := (Z.of_nat (_idx self) + offset)%Z in
  (- len ≤ i < 0)%Z →
  ∃ t, peek self offset = Ret t
       ∧ _tokens self !! Z.to_nat (len + i) = Some t.
Proof.
  intros len i Hi. unfold peek, Py.index. fold i. fold len.
  destruct (Z.ltb_spec i 0); [|lia].
  destruct (Z.ltb_spec (i + len) 0); [lia|].
  replace (i + len)%Z with (len + i)%Z by lia.
  destruct (lookup_lt_is_Some_2 (_tokens self) (Z.to_nat (len + i))) as [t Ht].
  { unfold len in *. lia. }
  exists t. by rewrite Ht.
Qed.

Lemma peek_negative_counts_from_the_end_witness :
  ∃ t, peek (mkStream [Sample.T IDENTIFIER "a"; Sample.T IDENTIFIER "b";
                       Sample.T IDENTIFIER "c"] 1) (-2) = Ret t
       ∧ [Sample.T IDENTIFIER "a"; Sample.T IDENTIFIER "b";
          Sample.T IDENTIFIER "c"] !! 2 = Some t.
Proof.
  apply (peek_negative_counts_from_the_end
           (mkStream [Sample.T IDENTIFIER "a"; Sample.T IDENTIFIER "b";
                      Sample.T IDENTIFIER "c"] 1) (-2)).
  simpl. lia.
Defined.

(** ** describe_location *)

Lemma describe_lines_found file_name start end_ lines lineno0 count0 k line :
  lines !! k = Some line →
  let lstart := count0 + line_start lines k in
  let lend := lstart + String.length line in
  (Z.of_nat lstart ≤ start ≤ Z.of_nat lend)%Z →
  describe_lines file_name start end_ lines lineno0 count0
  = Some (description file_name (lineno0 + k) line (start - Z.of_nat lstart)
            (Z.min (Z.of_nat lend - 1) end_ - start + 1)).
Proof.
  revert lineno0 count0 k; induction lines as [|l lines IH]; intros lineno0 count0 k; [done|].
  destruct k as [|k]; simpl.
  - intros [= ->]. change (line_start (line :: lines) 0) with 0.
    rewrite !Nat.add_0_r. intros Hin.
    destruct (Z.leb_spec (Z.of_nat count0) start); [|lia].
    destruct (Z.leb_spec start (Z.of_nat (count0 + String.length line))); [|lia].
    simpl. unfold description, underline. by rewrite !append_assoc.
  - intros Hk Hin.
    assert (line_start (l :: lines) (S k) = String.length l + 1 + line_start lines k) as Hls
      by done.
    rewrite Hls in Hin.
    destruct (Z.leb_spec start (Z.of_nat (count0 + String.length l))); [lia|].
    rewrite andb_false_r.
    rewrite (IH (S lineno0) (count0 + String.length l + 1) k Hk) by lia.
    rewrite Hls. f_equal. f_equal; lia.
Qed.

Lemma str_repeat_max c n : Py.str_repeat c (Z.max 0 n) = Py.str_repeat c n.
Proof. unfold Py.str_repeat. do 2 f_equal. lia. Qed.

Lemma length_str_repeat c n : String.length (Py.str_repeat c n) = Z.to_nat n.
Proof.
  unfold Py.str_repeat. induction (Z.to_nat n) as [|k IH]; simpl; [done|]. by rewrite IH.
Qed.

(** C8, amended: for a location whose file exists and whose start
    offset lies within line [lineno] (from the line's start up to and
    including the position of its terminator), [describe_location]
    returns the header with the 1-based line number, the line, and an
    underline that begins at column [start - line_start] and has
    [max 0 (min (line_end - 1) end - start + 1)] tildes: at least one
    when the start is before the line's end and the end is not before
    the start, exactly one for a one-character span there, and none
    when the start is the position of the terminator. *)
Theorem describe_location_underlines_the_span
    (file_exists : option string → bool) (read_file : option string → string)
    (file_name : option string) (start end_ : Z) (lineno : nat) (line : string) :
  file_exists file_name = true →
  splitlines (read_file file_name) !! lineno = Some line →
  let lstart := line_start (splitlines (read_file file_name)) lineno in
  let lend := lstart + String.length line in
  (Z.of_nat lstart ≤ start ≤ Z.of_nat lend)%Z →
  let n := Z.max 0 (Z.min (Z.of_nat lend - 1) end_ - start + 1) in
  describe_location file_exists read_file (Some (file_name, (start, end_)))
  = Some (description file_name lineno line (start - Z.of_nat lstart) n)
  ∧ String.length (Py.str_repeat "~" n) = Z.to_nat n
  ∧ (start < Z.of_nat lend → start ≤ end_ → 1 ≤ n)%Z
  ∧ (start < Z.of_nat lend → end_ = start → n = 1)%Z
  ∧ (start = Z.of_nat lend → n = 0)%Z.
Proof.
  intros Hex Hline lstart lend Hin n. split_and!.
  - unfold describe_location. rewrite Hex. simpl.
    rewrite (describe_lines_found _ _ _ _ 0 0 lineno line Hline) by (simpl; lia).
    simpl. unfold description, n. by rewrite str_repeat_max.
  - apply length_str_repeat.
  - unfold n. lia.
  - unfold n. lia.
  - unfold n. lia.
Qed.

Lemma describe_location_underlines_the_span_witness :
  describe_location Sample.any_file Sample.one_char_line
    (Some (Some "filename", (0, 0)%Z))
  = Some ("from filename line 1:" +:+ nl +:+ "S" +:+ nl +:+ "~").
Proof.
  destruct (describe_location_underlines_the_span
              Sample.any_file Sample.one_char_line (Some "filename") 0 0 0 "S")
    as [H _].
  - reflexivity.
  - reflexivity.
  - vm_compute. split; discriminate.
  - exact H.
Defined.

(** C8 as stated fails: with [max 1] in place of [max 0] the claimed
    description differs from the one returned for the two lines [ab]
    and [cd] and the span [(2, 2)], the terminator of the first line,
    where the underline is empty. *)
Lemma describe_location_underline_can_be_empty :
  ¬ (∀ (file_exists : option string → bool) (read_file : option string → string)
       (file_name : option string) (start end_ : Z) (lineno : nat) (line : string),
       file_exists file_name = true →
       splitlines (read_file file_name) !! lineno = Some line →
       let lstart := line_start (splitlines (read_file file_name)) lineno in
       let lend := lstart + String.length line in
       (Z.of_nat lstart ≤ start ≤ Z.of_nat lend)%Z →
       describe_location file_exists read_file (Some (file_name, (start, end_)))
       = Some (description file_name lineno line (start - Z.of_nat lstart)
                 (Z.max 1 (Z.min (Z.of_nat lend - 1) end_ - start + 1)))).
Proof.
  intros H.
  specialize (H Sample.any_file Sample.ab_cd (Some "f") 2%Z 2%Z 0 "ab"
                eq_refl eq_refl).
  assert (Hin : (0 ≤ 2 ≤ 2)%Z) by lia.
  specialize (H Hin). vm_compute in H. discriminate H.
Qed.

(** The same on the smallest input: one empty line, the span [(0, 0)]. *)
Example describe_location_empty_line :
  describe_location Sample.any_file Sample.empty_line (Some (Some "f", (0, 0)%Z))
  = Some ("from f line 1:" +:+ nl +:+ nl).
Proof. reflexivity. Qed.

(** ** Macros *)

Lemma is_kind_true (t : VToken) k : is_kind t k = true ↔ kind t = k.
Proof. unfold is_kind. apply bool_decide_eq_true. Qed.

Lemma is_kind_false (t : VToken) k : is_kind t k = false ↔ kind t ≠ k.
Proof. unfold is_kind. apply bool_decide_eq_false. Qed.

Lemma index_of_lt x t i : Py.index_of x t = Some i → i < length t.
Proof.
  revert i; induction t as [|y t IH]; intros i; simpl; [done|].
  destruct (String.eqb x y).
  - intros [= <-]. lia.
  - destruct (Py.index_of x t) as [j|]; [|done]. intros [= <-].
    specialize (IH j eq_refl). lia.
Qed.

Lemma expand_loop_missing_default self values body acc token i :
  token ∈ body →
  kind token = IDENTIFIER →
  Py.index_of (value token) (args self) = Some i →
  length values ≤ i →
  defaults self !! value token = None →
  expand_loop self values body acc = [].
Proof.
  intros Hin Hk Hi Hlen Hd. revert acc.
  induction body as [|t body IH]; intros acc; [by apply elem_of_nil in Hin|].
  apply elem_of_cons in Hin as [<-|Hin]; simpl.
  - apply is_kind_true in Hk. rewrite Hk, Hi.
    by rewrite (lookup_ge_None_2 values i Hlen), Hd.
  - specialize (IH Hin).
    destruct (is_kind t IDENTIFIER); [|done].
    destruct (Py.index_of (value t) (args self)) as [j|]; [|done].
    destruct (values !! j); [done|].
    by destruct (defaults self !! value t).
Qed.

Lemma expand_loop_no_args self values body acc :
  args self = [] → expand_loop self values body acc = acc ++ body.
Proof.
  intros Ha. revert acc; induction body as [|t body IH]; intros acc; simpl.
  - by rewrite app_nil_r.
  - rewrite Ha. simpl. destruct (is_kind t IDENTIFIER); by rewrite IH, <- app_assoc.
Qed.

Lemma expand_loop_cons self values t body acc :
  expand_loop self values (t :: body) acc
  = match substitute self values t with
    | Some out => expand_loop self values body (acc ++ out)
    | None => []
    end.
Proof.
  unfold substitute. simpl.
  destruct (is_kind t IDENTIFIER); [|done].
  destruct (Py.index_of (value t) (args self)) as [i|]; [|done].
  destruct (Nat.ltb_spec i (length values)) as [Hi|Hi].
  - by destruct (lookup_lt_is_Some_2 values i Hi) as [v ->].
  - by rewrite (lookup_ge_None_2 values i Hi).
Qed.

Lemma expand_loop_substitute self values body acc :
  expand_loop self values body acc
  = match mapM (substitute self values) body with
    | Some outs => acc ++ concat outs
    | None => []
    end.
Proof.
  revert acc; induction body as [|t body IH]; intros acc.
  - simpl. by rewrite app_nil_r.
  - rewrite expand_loop_cons. cbn [mapM].
    destruct (substitute self values t) as [out|]; simpl; [|done].
    rewrite IH. destruct (mapM _ body); simpl; [|done]. by rewrite app_assoc.
Qed.

Lemma mapM_substitute_app self values l1 l2 o1 o2 :
  mapM (substitute self values) l1 = Some o1 →
  mapM (substitute self values) l2 = Some o2 →
  mapM (substitute self values) (l1 ++ l2) = Some (o1 ++ o2).
Proof.
  rewrite !mapM_Some. apply Forall2_app.
Qed.

(** C5: [expand] returns no token as soon as one body token is an
    identifier naming a declared parameter whose position the actuals
    do not reach and which has no default; and preprocessing
    [`define foo(arg1, arg2) arg1 arg2] followed by [`foo(1)] yields no
    token. *)
Theorem expand_without_default_is_empty :
  (∀ (self : Macro) (values : list (list VToken)) (token : VToken) (i : nat),
     token ∈ tokens self →
     kind token = IDENTIFIER →
     Py.index_of (value token) (args self) = Some i →
     length values ≤ i →
     defaults self !! value token = None →
     expand self values = [])
  ∧ (∀ file_exists read_file exists_ read tokenize, ∃ defines,
       preprocess file_exists read_file exists_ read tokenize 30
         Sample.two_args_one_actual ∅ [] []
       = Ret ([], defines, [])
       ∧ defines !! "foo" = Some Sample.foo_without_default).
Proof.
  split.
  - intros self values token i ?????. unfold expand.
    by eapply expand_loop_missing_default.
  - intros. eexists. split; vm_compute; reflexivity.
Qed.

Lemma expand_without_default_is_empty_witness :
  expand Sample.foo_without_default [[Sample.T Sample.INTEGER "1"]] = [].
Proof.
  apply (proj1 expand_without_default_is_empty Sample.foo_without_default
           [[Sample.T Sample.INTEGER "1"]] (Sample.T IDENTIFIER "arg2") 1).
  - apply (list_elem_of_lookup_2 _ 2). reflexivity.
  - reflexivity.
  - reflexivity.
  - simpl. lia.
  - reflexivity.
Defined.

(** C6: for a macro without parameters [expand_from_stream] returns
    the body and leaves the stream as it was, and [expand] returns the
    body whatever the actuals. *)
Theorem zero_parameter_macro_is_its_body (self : Macro) :
  args self = [] →
  (∀ stream, expand_from_stream self stream = (tokens self, stream))
  ∧ (∀ values, expand self values = tokens self).
Proof.
  intros Ha.
  assert (∀ values, expand self values = tokens self) as He.
  { intros values. unfold expand. by rewrite expand_loop_no_args. }
  split; [|done]. intros stream. unfold expand_from_stream, num_args.
  rewrite Ha. simpl. by rewrite He.
Qed.

Lemma zero_parameter_macro_is_its_body_witness :
  (∀ stream, expand_from_stream Sample.bar stream = ([Sample.T STRING "abc"], stream))
  ∧ (∀ values, expand Sample.bar values = [Sample.T STRING "abc"]).
Proof.
  apply (zero_parameter_macro_is_its_body Sample.bar). reflexivity.
Defined.

(** C7: at a body token naming a parameter that the actuals do not
    reach and that has a default, the expansion appends the default's
    tokens to what it has built and goes on; in the result they stand
    between what the tokens before and after stand for; and
    preprocessing [`define foo(arg1, arg2=default) arg1 arg2] followed
    by [`foo(1)] yields the tokens of [1 default]. *)
Theorem default_fills_an_omitted_parameter :
  (∀ (self : Macro) (values : list (list VToken)) (after built : list VToken)
     (token : VToken) (i : nat) (default : list VToken),
     kind token = IDENTIFIER →
     Py.index_of (value token) (args self) = Some i →
     length values ≤ i →
     defaults self !! value token = Some default →
     expand_loop self values (token :: after) built
     = expand_loop self values after (built ++ default))
  ∧ (∀ (self : Macro) (values : list (list VToken)) (before after : list VToken)
     (token : VToken) (i : nat) (default : list VToken)
     (outs_before outs_after : list (list VToken)),
     tokens self = before ++ token :: after →
     kind token = IDENTIFIER →
     Py.index_of (value token) (args self) = Some i →
     length values ≤ i →
     defaults self !! value token = Some default →
     mapM (substitute self values) before = Some outs_before →
     mapM (substitute self values) after = Some outs_after →
     expand self values = concat outs_before ++ default ++ concat outs_after)
  ∧ (∀ file_exists read_file exists_ read tokenize, ∃ defines,
       preprocess file_exists read_file exists_ read tokenize 30
         Sample.default_for_second ∅ [] []
       = Ret (Sample.one_default, defines, [])
       ∧ defines !! "foo" = Some Sample.foo_with_default).
Proof.
  assert (∀ (self : Macro) values (token : VToken) i default,
            kind token = IDENTIFIER →
            Py.index_of (value token) (args self) = Some i →
            length values ≤ i →
            defaults self !! value token = Some default →
            substitute self values token = Some default) as Hsubst.
  { intros self values token i default Hk Hi Hlen Hd.
    unfold substitute. apply is_kind_true in Hk. rewrite Hk, Hi.
    by destruct (Nat.ltb_spec i (length values)); [lia|]. }
  split_and!.
  - intros self values after built token i default Hk Hi Hlen Hd.
    by rewrite expand_loop_cons, (Hsubst _ _ _ _ _ Hk Hi Hlen Hd).
  - intros self values before after token i default ob oa Hb Hk Hi Hlen Hd Hob Hoa.
    unfold expand. rewrite expand_loop_substitute, Hb.
    pose proof (Hsubst _ _ _ _ _ Hk Hi Hlen Hd) as Hs.
    rewrite (mapM_substitute_app _ _ before (token :: after) ob (default :: oa)); [|done|].
    + simpl. by rewrite concat_app.
    + cbn [mapM]. rewrite Hs, Hoa. done.
  - intros. eexists. split; vm_compute; reflexivity.
Qed.

Lemma default_fills_an_omitted_parameter_witness :
  expand Sample.foo_with_default [[Sample.T Sample.INTEGER "1"]]
  = Sample.one_default.
Proof.
  apply (proj1 (proj2 default_fills_an_omitted_parameter)
           Sample.foo_with_default
           [[Sample.T Sample.INTEGER "1"]]
           [Sample.T IDENTIFIER "arg1"; Sample.sp] [] (Sample.T IDENTIFIER "arg2") 1
           [Sample.T IDENTIFIER "default"]
           [[Sample.T Sample.INTEGER "1"]; [Sample.sp]] []).
  - reflexivity.
  - reflexivity.
  - reflexivity.
  - simpl. lia.
  - reflexivity.
  - reflexivity.
  - reflexivity.
Defined.

(** ** The preprocessor *)

Lemma eof_false_lookup {K} (s : TokenStream K) t :
  _tokens s !! _idx s = Some t → eof s = false.
Proof.
  intros H%lookup_lt_Some. unfold eof.
  by rewrite (proj2 (Nat.ltb_lt _ _) H).
Qed.

Lemma eof_true_length {K} (s : TokenStream K) :
  length (_tokens s) ≤ _idx s → eof s = true.
Proof.
  intros H. unfold eof. by rewrite (proj2 (Nat.ltb_ge _ _) H).
Qed.

Lemma eof_false_length {K} (s : TokenStream K) :
  _idx s < length (_tokens s) → eof s = false.
Proof.
  intros H. unfold eof. by rewrite (proj2 (Nat.ltb_lt _ _) H).
Qed.

Lemma pop_lookup {K} (s : TokenStream K) t :
  _tokens s !! _idx s = Some t → pop s = (Some t, advance s).
Proof. intros H. unfold pop. by rewrite (eof_false_lookup s t H), H. Qed.

Section PreprocessProofs.
Variable file_exists : option string → outcome bool.
Variable read_file : option string → outcome string.
Variable exists_ : string → bool.
Variable read : string → outcome string.
Variable tokenize : string → list VToken.

#[local] Abbreviation preprocess_loop :=
  (preprocess_loop file_exists read_file exists_ read tokenize).
#[local] Abbreviation preprocess :=
  (preprocess file_exists read_file exists_ read tokenize).
#[local] Abbreviation define := (define file_exists read_file).
#[local] Abbreviation find_include := (find_include exists_).

Implicit Types (defines : gmap string Macro) (stream : VStream)
  (included_files include_paths : list string) (result : list VToken).

Lemma preprocess_loop_plain fuel include_paths stream defines included_files
    result t :
  _tokens stream !! _idx stream = Some t →
  kind t ≠ PREPROCESSOR →
  preprocess_loop (S fuel) include_paths stream defines included_files result
  = preprocess_loop fuel include_paths (advance stream) defines included_files
      (result ++ [t]).
Proof.
  intros Ht Hk. simpl. rewrite (eof_false_lookup _ _ Ht), (pop_lookup _ _ Ht).
  apply is_kind_false in Hk. by rewrite Hk.
Qed.

Lemma preprocess_loop_unknown fuel include_paths stream defines included_files
    result t :
  _tokens stream !! _idx stream = Some t →
  kind t = PREPROCESSOR →
  value t ≠ "define" → value t ≠ "include" →
  defines !! value t = None →
  preprocess_loop (S fuel) include_paths stream defines included_files result
  = preprocess_loop fuel include_paths (advance stream) defines included_files
      result.
Proof.
  intros Ht Hk Hd Hi Hm. simpl.
  rewrite (eof_false_lookup _ _ Ht), (pop_lookup _ _ Ht).
  apply is_kind_true in Hk. rewrite Hk. simpl.
  apply String.eqb_neq in Hd, Hi. rewrite Hd, Hi. simpl. by rewrite Hm.
Qed.

Lemma preprocess_loop_only_unknown include_paths toks defines included_files :
  (∀ t, t ∈ toks → kind t = PREPROCESSOR →
        value t ≠ "define" ∧ value t ≠ "include" ∧ defines !! value t = None) →
  ∀ n i result,
    n = length toks - i → i ≤ length toks →
    preprocess_loop (S n) include_paths (mkStream toks i) defines
      included_files result
    = Ret (result ++ filter (λ t, kind t ≠ PREPROCESSOR) (drop i toks),
           defines, included_files).
Proof.
  intros Hall. induction n as [|n IH]; intros i result Hn Hi.
  - simpl. rewrite eof_true_length by (simpl; lia).
    rewrite drop_ge by lia. by rewrite app_nil_r.
  - destruct (lookup_lt_is_Some_2 toks i) as [t Ht]; [lia|].
    rewrite (drop_S _ _ _ Ht).
    destruct (decide (kind t = PREPROCESSOR)) as [Hk|Hk].
    + destruct (Hall t) as (Hd & Hinc & Hm); [by eapply list_elem_of_lookup_2|done|].
      rewrite (preprocess_loop_unknown _ _ _ _ _ _ t) by done.
      rewrite filter_cons_False by (by intros ?).
      apply IH; lia.
    + rewrite (preprocess_loop_plain _ _ _ _ _ _ t) by done.
      rewrite filter_cons_True by done.
      change (advance (mkStream toks i)) with (mkStream toks (S i)).
      rewrite IH by lia. by rewrite <- app_assoc.
Qed.


(** More fuel does not change an outcome that was reached. *)
Lemma preprocess_loop_fuel n m include_paths stream defines included_files
    result :
  n ≤ m →
  preprocess_loop n include_paths stream defines included_files result
  ≠ OutOfFuel →
  preprocess_loop m include_paths stream defines included_files result
  = preprocess_loop n include_paths stream defines included_files result.
Proof.
  revert m stream defines included_files result.
  induction n as [|n IH]; intros m stream defines included_files result Hm;
    [done|].
  destruct m as [|m]; [lia|]. simpl.
  destruct (eof stream); [done|].
  destruct (pop stream) as [[token|] stream1]; [|done].
  destruct (negb (is_kind token PREPROCESSOR)); [apply IH; lia|].
  match goal with
  | |- context [mbind _ ?m] => destruct m as [[defines1 stream2]| |]
  end; simpl; [|done..].
  destruct (String.eqb (value token) "include").
  - destruct (include_argument defines1 stream2) as [[file_name|] stream3];
      [|apply IH; lia].
    destruct (find_include include_paths file_name) as [full_name|];
      [|apply IH; lia].
    destruct (read full_name) as [code| |]; simpl; [|done..].
    intros Hne.
    rewrite (IH m (stream_of _)) by (lia || by intros E; rewrite E in Hne).
    destruct (preprocess_loop n include_paths (stream_of _) defines1 _ [])
      as [[[included defines2] included_files2]| |]; simpl in *; [|done..].
    apply IH; [lia|done].
  - destruct (defines1 !! value token) as [macro|]; [|apply IH; lia].
    destruct (expand_from_stream macro stream2) as [expanded stream3].
    apply IH; lia.
Qed.

(** The log of included files is only appended to. *)
Lemma preprocess_loop_log fuel include_paths stream defines included_files
    result out defines' included_files' :
  preprocess_loop fuel include_paths stream defines included_files result
  = Ret (out, defines', included_files') →
  ∃ extra, included_files' = included_files ++ extra.
Proof.
  revert stream defines included_files result out defines' included_files'.
  induction fuel as [|fuel IH];
    intros stream defines included_files result out defines' included_files';
    [done|].
  simpl. destruct (eof stream).
  { intros [= _ _ <-]. exists []. by rewrite app_nil_r. }
  destruct (pop stream) as [[token|] stream1]; [|done].
  destruct (negb (is_kind token PREPROCESSOR)); [apply IH|].
  match goal with
  | |- context [mbind _ ?m] => destruct m as [[defines1 stream2]| |]
  end; simpl; [|done..].
  destruct (String.eqb (value token) "include").
  - destruct (include_argument defines1 stream2) as [[file_name|] stream3];
      [|apply IH].
    destruct (find_include include_paths file_name) as [full_name|]; [|apply IH].
    destruct (read full_name) as [code| |]; simpl; [|done..].
    destruct (preprocess_loop fuel include_paths (stream_of _) defines1 _ [])
      as [[[included defines2] included_files2]| |] eqn:E; simpl; [|done..].
    apply IH in E as [extra1 ->]. intros [extra2 ->]%IH.
    exists ([full_name] ++ extra1 ++ extra2). by rewrite !app_assoc.
  - destruct (defines1 !! value token) as [macro|]; [|apply IH].
    destruct (expand_from_stream macro stream2) as [expanded stream3].
    apply IH.
Qed.





(** C2, amended: a directive token whose value is not [define], not
    [include] and not a key of the definitions table is dropped: the
    run goes on with the next token and the same output, table and
    log; so a token list whose directive tokens are all of that sort
    comes out as its other tokens, in order. *)
Theorem unknown_directive_is_dropped :
  (∀ fuel include_paths stream defines included_files result t,
     _tokens stream !! _idx stream = Some t →
     kind t = PREPROCESSOR →
     value t ≠ "define" → value t ≠ "include" →
     defines !! value t = None →
     preprocess_loop (S fuel) include_paths stream defines included_files result
     = preprocess_loop fuel include_paths (advance stream) defines
         included_files result)
  ∧ (∀ toks defines include_paths included_files,
       (∀ t, t ∈ toks → kind t = PREPROCESSOR →
             value t ≠ "define" ∧ value t ≠ "include"
             ∧ defines !! value t = None) →
       preprocess (S (length toks)) toks defines include_paths included_files
       = Ret (filter (λ t, kind t ≠ PREPROCESSOR) toks, defines,
              included_files)).
Proof.
  split.
  - apply preprocess_loop_unknown.
  - intros toks defines include_paths included_files Hall.
    unfold preprocess, stream_of.
    rewrite (preprocess_loop_only_unknown _ _ _ _ Hall (length toks) 0 [])
      by lia.
    done.
Qed.
End PreprocessProofs.



(** A path that exists and cannot be read, a directory for one: the
    exception of opening it leaves [preprocess]. *)
Example include_of_an_unreadable_path_raises fuel :
  preprocess Sample.file_exists Sample.read_file
    Sample.dir_exists Sample.dir_read Sample.tokenize (S fuel)
    Sample.include_x ∅ ["/out"] []
  = Raise OSError.
Proof. reflexivity. Qed.

Lemma unknown_directive_is_dropped_witness :
  preprocess Sample.file_exists Sample.read_file
    Sample.exists_ Sample.read Sample.tokenize 6
    Sample.around_unknown_directive ∅ [] []
  = Ret ([Sample.T IDENTIFIER "hello"; Sample.sp; Sample.sp;
          Sample.T IDENTIFIER "hey"], ∅, []).
Proof.
  apply (proj2 (unknown_directive_is_dropped Sample.file_exists
    Sample.read_file Sample.exists_ Sample.read
                  Sample.tokenize) Sample.around_unknown_directive ∅ [] []).
  intros t Ht Hk. unfold Sample.around_unknown_directive in Ht.
  repeat (apply elem_of_cons in Ht as [->|Ht]; [try discriminate Hk|]).
  - done.
  - by apply elem_of_nil in Ht.
Defined.

(** C2 as stated fails: the one-token list [`timescale] with an empty
    table comes out empty, so the directive token is not in the
    output. *)
Lemma unknown_directive_is_not_passed_through :
  ¬ (∀ file_exists read_file exists_ read tokenize fuel
       (toks : list VToken) defines include_paths
       included_files (t : VToken) out defines' included_files',
       t ∈ toks →
       kind t = PREPROCESSOR →
       value t ≠ "define" → value t ≠ "include" →
       defines !! value t = None →
       preprocess file_exists read_file exists_ read tokenize fuel toks
         defines include_paths included_files
       = Ret (out, defines', included_files') →
       t ∈ out).
Proof.
  intros H.
  specialize (H Sample.file_exists Sample.read_file
                Sample.exists_ Sample.read Sample.tokenize 2
                Sample.unknown_directive ∅ [] []
                (Sample.T PREPROCESSOR "timescale") [] ∅ []).
  eapply elem_of_nil, H; try done.
  apply elem_of_cons. by left.
Qed.

(** C9, where the code fails it: when the macro name is followed by a
    token that is neither whitespace, a newline nor [(], [define] raises
    [UnboundLocalError], because [args] and [defaults] were never
    assigned. *)
Theorem define_reads_unassigned_locals
    (file_exists : option string → outcome bool)
    (read_file : option string → outcome string)
    (define_token : VToken) (stream : VStream) (name_token token : VToken) :
  let stream1 := (skip_while stream [WHITESPACE]).2 in
  _tokens stream1 !! _idx stream1 = Some name_token →
  kind name_token = IDENTIFIER →
  _tokens stream1 !! S (_idx stream1) = Some token →
  kind token ≠ WHITESPACE → kind token ≠ NEWLINE → kind token ≠ LPAR →
  define file_exists read_file define_token stream = Raise UnboundLocalError.
Proof.
  unfold define. destruct (skip_while stream [WHITESPACE]) as [i stream1]. simpl.
  intros Hname Hk Htoken Hw Hn Hl.
  rewrite (pop_lookup _ _ Hname).
  assert (is_kind name_token NEWLINE = false) as ->
    by (apply is_kind_false; congruence).
  assert (is_kind name_token IDENTIFIER = true) as ->
    by (by apply is_kind_true).
  simpl. rewrite (pop_lookup (advance stream1) token Htoken).
  apply is_kind_false in Hw, Hn, Hl. by rewrite Hw, Hn, Hl.
Qed.

Lemma define_reads_unassigned_locals_witness :
  define Sample.file_exists Sample.read_file (Sample.T PREPROCESSOR "define")
    (mkStream Sample.define_name_then_string 1)
  = Raise UnboundLocalError.
Proof.
  apply (define_reads_unassigned_locals Sample.file_exists Sample.read_file
           (Sample.T PREPROCESSOR "define")
           (mkStream Sample.define_name_then_string 1)
           (Sample.T IDENTIFIER "foo") (Sample.T STRING "abc"));
    (reflexivity || discriminate).
Defined.

(** The exception leaves [preprocess] as well. *)
Example preprocess_define_name_then_string
    file_exists read_file exists_ read tokenize fuel :
  preprocess file_exists read_file exists_ read tokenize (S fuel)
    Sample.define_name_then_string ∅ [] []
  = Raise UnboundLocalError.
Proof. reflexivity. Qed.

(** [tokenize] before [finalize] raises; [add] after [finalize] returns,
    and the rule it adds is not part of the compiled alternation. *)
Example tokenize_before_finalize {K} (k : K) (rx : pattern) fuel code :
  tokenize (fst (add init k rx None)) fuel code None false = Raise AttributeError.
Proof. reflexivity. Qed.

Example add_after_finalize {K} (self : Tokenizer K) (k : K) (rx : pattern) func :
  _regex (fst (add (finalize self) k rx func)) = Some (_regexs self).
Proof. reflexivity. Qed.

(** ** The bounded loops never run out of rounds *)

Section Rounds.
Context {K : Type} `{EqDecision K}.
Implicit Types (s : TokenStream K).

Lemma skip_while_loop_rounds (kinds : list K) n m s :
  length (_tokens s) - _idx s ≤ n → n ≤ m →
  skip_while_loop kinds n s = skip_while_loop kinds m s.
Proof.
  revert m s; induction n as [|n IH]; intros m s Hn Hm.
  - destruct m as [|m]; [done|]. simpl. by rewrite eof_true_length by lia.
  - destruct m as [|m]; [lia|]. simpl.
    destruct (eof s); [done|].
    destruct (_tokens s !! _idx s) as [t|] eqn:Ht; [|done].
    destruct (negb (kind_in t kinds)); [done|].
    apply lookup_lt_Some in Ht. apply IH; simpl; lia.
Qed.

Lemma skip_until_loop_rounds (kinds : list K) n m s :
  length (_tokens s) - _idx s ≤ n → n ≤ m →
  skip_until_loop kinds n s = skip_until_loop kinds m s.
Proof.
  revert m s; induction n as [|n IH]; intros m s Hn Hm.
  - destruct m as [|m]; [done|]. simpl. by rewrite eof_true_length by lia.
  - destruct m as [|m]; [lia|]. simpl.
    destruct (eof s); [done|].
    destruct (_tokens s !! _idx s) as [t|] eqn:Ht; [|done].
    destruct (kind_in t kinds); [done|].
    apply lookup_lt_Some in Ht. apply IH; simpl; lia.
Qed.

Lemma pop_cases s o s' :
  pop s = (o, s') →
  _tokens s' = _tokens s
  ∧ ((o = None ∧ s' = s ∧ length (_tokens s) ≤ _idx s)
     ∨ (is_Some o ∧ _idx s' = S (_idx s) ∧ _idx s < length (_tokens s))).
Proof.
  unfold pop, eof. destruct (Nat.ltb_spec (_idx s) (length (_tokens s))) as [Hlt|Hge]; simpl.
  - intros [= <- <-]. split; [done|]. right.
    split_and!; [by apply lookup_lt_is_Some_2|done..].
  - intros [= <- <-]. split; [done|]. by left.
Qed.
End Rounds.

Lemma actuals_loop_rounds n m (s : VStream) token value values :
  length (_tokens s) - _idx s < n → n ≤ m →
  actuals_loop n s token value values = actuals_loop m s token value values.
Proof.
  revert m s token value values; induction n as [|n IH];
    intros m s token value values Hn Hm; [lia|].
  destruct m as [|m]; [lia|]. simpl.
  destruct (is_kind token RPAR); [done|].
  destruct (is_kind token COMMA);
    (destruct (pop s) as [[t|] s'] eqn:Hp; [|done];
     apply pop_cases in Hp as (Ht & [(? & _)|(_ & Hi & Hlt)]); [done|];
     apply IH; rewrite ?Ht, ?Hi; lia).
Qed.

Lemma define_args_rounds n m (s : VStream) token args defaults :
  length (_tokens s) - _idx s < n → n ≤ m →
  define_args n s token args defaults = define_args m s token args defaults.
Proof.
  revert m s token args defaults; induction n as [|n IH];
    intros m s token args defaults Hn Hm; [lia|].
  destruct m as [|m]; [lia|]. simpl.
  destruct (is_kind token RPAR); [done|].
  destruct (is_kind token IDENTIFIER).
  - destruct (pop s) as [[t1|] s1] eqn:Hp1; [|done].
    apply pop_cases in Hp1 as (Ht1 & [(? & _)|(_ & Hi1 & Hlt1)]); [done|].
    destruct (is_kind t1 EQUAL).
    + destruct (pop s1) as [t2 s2] eqn:Hp2.
      apply pop_cases in Hp2 as (Ht2 & Hc2).
      destruct (pop s2) as [[t3|] s3] eqn:Hp3; [|done].
      apply pop_cases in Hp3 as (Ht3 & [(? & _)|(_ & Hi3 & Hlt3)]); [done|].
      apply IH; [|lia]. rewrite Ht3, Ht2, Ht1, Hi3.
      destruct Hc2 as [(_ & -> & _)|(_ & -> & _)]; lia.
    + apply IH; rewrite ?Ht1, ?Hi1; lia.
  - destruct (pop s) as [[t1|] s1] eqn:Hp1; [|done].
    apply pop_cases in Hp1 as (Ht1 & [(? & _)|(_ & Hi1 & Hlt1)]); [done|].
    apply IH; rewrite ?Ht1, ?Hi1; lia.
Qed.

(** ** How an [`include] finds its argument *)

Lemma skip_while_to {K} `{EqDecision K} (kinds : list K) (s : TokenStream K) j :
  _idx s ≤ j →
  (∀ i t, _idx s ≤ i < j → _tokens s !! i = Some t → kind_in t kinds = true) →
  (∀ t, _tokens s !! j = Some t → kind_in t kinds = false) →
  j ≤ length (_tokens s) →
  skip_while s kinds = (j, mkStream (_tokens s) j).
Proof.
  intros Hj Hin Hout Hlen. unfold skip_while.
  rewrite (skip_while_loop_rounds kinds _ (S (length (_tokens s) - _idx s)))
    by lia.
  enough (∀ n s', _tokens s' = _tokens s → j - _idx s' < n → _idx s ≤ _idx s' ≤ j →
                  skip_while_loop kinds n s' = mkStream (_tokens s) j) as Hgo.
  { rewrite (Hgo _ s); [done|done|lia|lia]. }
  induction n as [|n IH]; intros s' Ht Hn Hi; [lia|]. simpl.
  destruct (decide (_idx s' = j)) as [Heq|Hne].
  - destruct (eof s'); [by destruct s'; simplify_eq/=|].
    rewrite Ht, Heq.
    destruct (_tokens s !! j) as [t|] eqn:Etj; [|by destruct s'; simplify_eq/=].
    rewrite (Hout t eq_refl). simpl. by destruct s'; simplify_eq/=.
  - rewrite eof_false_length by (rewrite Ht; lia).
    rewrite Ht.
    destruct (lookup_lt_is_Some_2 (_tokens s) (_idx s')) as [t Etj]; [lia|].
    rewrite Etj, (Hin (_idx s') t) by (done || lia). simpl.
    apply IH; simpl; [done|lia|lia].
Qed.

Lemma include_argument_string defines (s : VStream) j tok :
  _idx s ≤ j →
  (∀ i t, _idx s ≤ i < j → _tokens s !! i = Some t → kind t = WHITESPACE) →
  _tokens s !! j = Some tok →
  kind tok = STRING →
  include_argument defines s = (Some (value tok), mkStream (_tokens s) (S j)).
Proof.
  intros Hj Hws Htok Hk. unfold include_argument.
  rewrite (skip_while_to [WHITESPACE] s j); first last.
  - apply lookup_lt_Some in Htok. lia.
  - intros t Ht. rewrite Htok in Ht. injection Ht as <-.
    unfold kind_in. simpl. rewrite Hk. done.
  - intros i t Hi Ht. unfold kind_in. simpl. by rewrite (Hws i t Hi Ht), bool_decide_eq_true_2.
  - done.
  - rewrite (pop_lookup (mkStream (_tokens s) j) tok Htok).
    assert (is_kind tok PREPROCESSOR = false) as ->
      by (apply is_kind_false; congruence).
    assert (is_kind tok STRING = true) as -> by (by apply is_kind_true).
    done.
Qed.

(** ** The cases of the test suite *)

Example test_describes_single_char_location :
  describe_location Sample.any_file (λ _, "S" +:+ nl)
    (Some (Some "filename", (0, 0)%Z))
  = Some ("from filename line 1:" +:+ nl +:+ "S" +:+ nl +:+ "~").
Proof. reflexivity. Qed.

Example test_describes_single_char_location_within :
  describe_location Sample.any_file (λ _, "  S" +:+ nl)
    (Some (Some "filename", (2, 2)%Z))
  = Some ("from filename line 1:" +:+ nl +:+ "  S" +:+ nl +:+ "  ~").
Proof. reflexivity. Qed.

Example test_describes_multi_char_location :
  describe_location Sample.any_file (λ _, "S E" +:+ nl)
    (Some (Some "filename", (0, 2)%Z))
  = Some ("from filename line 1:" +:+ nl +:+ "S E" +:+ nl +:+ "~~~").
Proof. reflexivity. Qed.

Example test_describes_multi_line_location :
  describe_location Sample.any_file (λ _, "  S____" +:+ nl +:+ " E" +:+ nl)
    (Some (Some "filename", (2, 9)%Z))
  = Some ("from filename line 1:" +:+ nl +:+ "  S____" +:+ nl +:+ "  ~~~~~").
Proof. reflexivity. Qed.

(** [`define foo(] *)
Example test_preprocess_broken_define_argument_list
    file_exists read_file exists_ read tokenize :
  preprocess file_exists read_file exists_ read tokenize 5
    [Sample.T PREPROCESSOR "define"; Sample.sp; Sample.T IDENTIFIER "foo";
     Sample.T LPAR "("] ∅ [] []
  = Ret ([], ∅, []).
Proof. reflexivity. Qed.

(** [`define foo(arg)arg 123] and, on the next line, [`foo(hello hey)] *)
Example test_preprocess_substitute_define_with_one_arg
    file_exists read_file exists_ read tokenize :
  ∃ defines,
    preprocess file_exists read_file exists_ read tokenize 5
      [Sample.T PREPROCESSOR "define"; Sample.sp; Sample.T IDENTIFIER "foo";
       Sample.T LPAR "("; Sample.T IDENTIFIER "arg"; Sample.T RPAR ")";
       Sample.T IDENTIFIER "arg"; Sample.sp; Sample.T Sample.INTEGER "123";
       Sample.T NEWLINE nl;
       Sample.T PREPROCESSOR "foo"; Sample.T LPAR "(";
       Sample.T IDENTIFIER "hello"; Sample.sp; Sample.T IDENTIFIER "hey";
       Sample.T RPAR ")"] ∅ [] []
    = Ret ([Sample.T IDENTIFIER "hello"; Sample.sp; Sample.T IDENTIFIER "hey";
            Sample.sp; Sample.T Sample.INTEGER "123"], defines, []).
Proof. eexists. vm_compute. reflexivity. Qed.

(** [`define inc "include.svh"] and, on the next line, [`include `inc] *)
Example test_preprocess_include_directive_from_define :
  ∃ defines,
    preprocess Sample.file_exists Sample.read_file
      Sample.exists_ Sample.read Sample.tokenize 10
      [Sample.T PREPROCESSOR "define"; Sample.sp; Sample.T IDENTIFIER "inc";
       Sample.sp; Sample.T STRING "include.svh"; Sample.T NEWLINE nl;
       Sample.T PREPROCESSOR "include"; Sample.sp; Sample.T PREPROCESSOR "inc"]
      ∅ ["/out"] []
    = Ret ([Sample.T IDENTIFIER "hello"; Sample.sp; Sample.T IDENTIFIER "hey"],
           defines, ["/out/include.svh"]).
Proof. eexists. vm_compute. reflexivity. Qed.

(** [`include "missing.svh"] *)
Example test_preprocess_include_directive_missing_file :
  preprocess Sample.file_exists Sample.read_file
    Sample.exists_ Sample.read Sample.tokenize 5
    [Sample.T PREPROCESSOR "include"; Sample.sp; Sample.T STRING "missing.svh"]
    ∅ ["/out"] []
  = Ret ([], ∅, []).
Proof. vm_compute. reflexivity. Qed.


(** * Further properties *)

(** ** The token stream, continued *)

Section StreamProofs.
Context {K : Type} `{EqDecision K}.
Implicit Types (s : TokenStream K) (kinds : list K).

Lemma skip_while_loop_spec kinds n s :
  let s' := skip_while_loop kinds n s in
  _tokens s' = _tokens s
  ∧ _idx s ≤ _idx s'
  ∧ (_idx s ≤ length (_tokens s) → _idx s' ≤ length (_tokens s))
  ∧ (∀ i t, _idx s ≤ i < _idx s' → _tokens s !! i = Some t →
            kind_in t kinds = true)
  ∧ (length (_tokens s) - _idx s ≤ n →
     ∀ t, _tokens s !! _idx s' = Some t → kind_in t kinds = false).
Proof.
  revert s; induction n as [|n IH]; intros s; simpl.
  - split_and!; [done|done|done|intros; lia|].
    intros Hn t Ht%lookup_lt_Some. lia.
  - destruct (eof s) eqn:Heof.
    { split_and!; [done|done|done|intros; lia|].
      intros _ t Ht. by rewrite (eof_false_lookup _ _ Ht) in Heof. }
    destruct (_tokens s !! _idx s) as [t0|] eqn:Ht0.
    2:{ split_and!; [done|done|done|intros; lia|]. intros _ t Ht. congruence. }
    destruct (kind_in t0 kinds) eqn:Hk; simpl.
    2:{ split_and!; [done|done|done|intros; lia|]. intros _ t Ht. congruence. }
    destruct (IH (advance s)) as (Ht & Hi & Hlen & Hin & Hout). simpl in *.
    apply lookup_lt_Some in Ht0 as Hlt.
    split_and!; [done|lia|intros; apply Hlen; lia| |].
    + intros i t Hi' Hti. destruct (decide (i = _idx s)) as [->|].
      * congruence.
      * apply (Hin i t); [lia|done].
    + intros Hn. apply Hout. lia.
Qed.

Lemma skip_until_loop_spec kinds n s :
  let s' := skip_until_loop kinds n s in
  _tokens s' = _tokens s
  ∧ _idx s ≤ _idx s'
  ∧ (_idx s ≤ length (_tokens s) → _idx s' ≤ length (_tokens s))
  ∧ (∀ i t, _idx s ≤ i < _idx s' → _tokens s !! i = Some t →
            kind_in t kinds = false)
  ∧ (length (_tokens s) - _idx s ≤ n →
     ∀ t, _tokens s !! _idx s' = Some t → kind_in t kinds = true).
Proof.
  revert s; induction n as [|n IH]; intros s; simpl.
  - split_and!; [done|done|done|intros; lia|].
    intros Hn t Ht%lookup_lt_Some. lia.
  - destruct (eof s) eqn:Heof.
    { split_and!; [done|done|done|intros; lia|].
      intros _ t Ht. by rewrite (eof_false_lookup _ _ Ht) in Heof. }
    destruct (_tokens s !! _idx s) as [t0|] eqn:Ht0.
    2:{ split_and!; [done|done|done|intros; lia|]. intros _ t Ht. congruence. }
    destruct (kind_in t0 kinds) eqn:Hk; simpl.
    { split_and!; [done|done|done|intros; lia|]. intros _ t Ht. congruence. }
    destruct (IH (advance s)) as (Ht & Hi & Hlen & Hin & Hout). simpl in *.
    apply lookup_lt_Some in Ht0 as Hlt.
    split_and!; [done|lia|intros; apply Hlen; lia| |].
    + intros i t Hi' Hti. destruct (decide (i = _idx s)) as [->|].
      * congruence.
      * apply (Hin i t); [lia|done].
    + intros Hn. apply Hout. lia.
Qed.

(** X1. [TokenStream.skip_while] returns the index at which it leaves the
    stream.  It changes no token, never moves the cursor back and, from a
    cursor inside the list, never past the end.  Every token it passed is
    of one of the given kinds, and the token it stops at, when there is
    one, is of none of them. *)
Theorem skip_while_stops_at_the_first_other_kind kinds s :
  let '(j, s') := skip_while s kinds in
  j = _idx s'
  ∧ _tokens s' = _tokens s
  ∧ _idx s ≤ j
  ∧ (_idx s ≤ length (_tokens s) → j ≤ length (_tokens s))
  ∧ (∀ i t, _idx s ≤ i < j → _tokens s !! i = Some t → kind_in t kinds = true)
  ∧ (∀ t, _tokens s !! j = Some t → kind_in t kinds = false).
Proof.
  unfold skip_while.
  destruct (skip_while_loop_spec kinds (length (_tokens s) - _idx s) s)
    as (Ht & Hi & Hlen & Hin & Hout).
  split_and!; auto.
Qed.

(** X2. [TokenStream.skip_until] is the mirror image of [skip_while]: no
    token it passed is of one of the given kinds, and the token it stops
    at, when there is one, is of one of them; the returned index is the
    new cursor, the tokens are unchanged and the cursor moves forward
    only. *)
Theorem skip_until_stops_at_the_first_listed_kind kinds s :
  let '(j, s') := skip_until s kinds in
  j = _idx s'
  ∧ _tokens s' = _tokens s
  ∧ _idx s ≤ j
  ∧ (_idx s ≤ length (_tokens s) → j ≤ length (_tokens s))
  ∧ (∀ i t, _idx s ≤ i < j → _tokens s !! i = Some t → kind_in t kinds = false)
  ∧ (∀ t, _tokens s !! j = Some t → kind_in t kinds = true).
Proof.
  unfold skip_until.
  destruct (skip_until_loop_spec kinds (length (_tokens s) - _idx s) s)
    as (Ht & Hi & Hlen & Hin & Hout).
  split_and!; auto.
Qed.

(** X3. At the end of the stream [current] and [peek(0)] raise
    [IndexError] while [pop] returns [None] and leaves the stream as it
    is.  Before the end the three agree on the token under the cursor,
    and [pop] moves the cursor by one. *)
Theorem current_raises_where_pop_returns_none s :
  (eof s = true →
   current s = Raise IndexError ∧ peek s 0 = Raise IndexError
   ∧ pop s = (None, s))
  ∧ (eof s = false →
     ∃ t, _tokens s !! _idx s = Some t
          ∧ current s = Ret t ∧ peek s 0 = Ret t
          ∧ pop s = (Some t, advance s)).
Proof.
  unfold current, peek, pop, Py.index, eof. rewrite Z.add_0_r. cbv zeta.
  rewrite !(proj2 (Z.ltb_ge (Z.of_nat (_idx s)) 0)) by lia. rewrite Nat2Z.id.
  destruct (Nat.ltb_spec (_idx s) (length (_tokens s))) as [Hlt|Hge]; simpl.
  - split; [done|]. intros _.
    destruct (lookup_lt_is_Some_2 _ _ Hlt) as [t Ht]. exists t. by rewrite Ht.
  - split; [|done]. intros _. by rewrite (lookup_ge_None_2 _ _ Hge).
Qed.

Lemma slice_lookup s a b :
  a ≤ b ≤ length (_tokens s) →
  length (slice s a b) = b - a
  ∧ ∀ i, i < b - a → slice s a b !! i = _tokens s !! (a + i).
Proof.
  intros Hab. unfold slice, Py.slice. split.
  - rewrite length_take, length_drop. lia.
  - intros i Hi. by rewrite lookup_take_lt, lookup_drop by done.
Qed.

(** X4. Slices of a stream, for indices that are not negative:
    [slice(a, b)] followed by [slice(b, c)] is [slice(a, c)] when
    [a <= b <= c]; the slice from 0 to the length is the whole list; a
    slice whose end is not after its start is empty; and after a [pop]
    that returned a token the slice between the old and the new cursor
    holds that token alone. *)
Theorem slices_join_and_hold_what_was_popped s :
  (∀ a b c, a ≤ b ≤ c → slice s a b ++ slice s b c = slice s a c)
  ∧ slice s 0 (length (_tokens s)) = _tokens s
  ∧ (∀ a b, b ≤ a → slice s a b = [])
  ∧ (∀ t s', pop s = (Some t, s') → slice s' (_idx s) (_idx s') = [t]).
Proof.
  unfold slice, Py.slice. split_and!.
  - intros a b c [Hab Hbc].
    replace (c - a) with ((b - a) + (c - b)) by lia.
    rewrite <- take_take_drop, drop_drop.
    by replace (a + (b - a)) with b by lia.
  - rewrite drop_0, Nat.sub_0_r. apply take_ge. done.
  - intros a b Hba. replace (b - a) with 0 by lia. apply take_0.
  - intros t s' Hp. unfold pop in Hp.
    destruct (eof s); [done|]. injection Hp as Ht <-. simpl.
    replace (S (_idx s) - _idx s) with 1 by lia.
    apply lookup_lt_Some in Ht as Hlt.
    by rewrite (drop_S _ _ _ Ht).
Qed.

End StreamProofs.

(** ** The tokenizer, continued *)

Lemma str_take_length n s :
  String.length (Py.str_take n s) = Nat.min n (String.length s).
Proof.
  revert s; induction n as [|n IH]; intros [|c s]; simpl; auto.
Qed.

Lemma str_slice_length s a b :
  b ≤ String.length s → String.length (Py.str_slice s a b) = b - a.
Proof.
  intros Hb. unfold Py.str_slice. rewrite str_take_length, str_drop_length. lia.
Qed.

Section TokenizerMore.
Context {K : Type}.
Implicit Types (self : Tokenizer K) (alts : list pattern) (code : string).

Lemma search_key alts code start m :
  search alts code start = Some m → lastgroup m < length alts.
Proof.
  unfold search. intros (_ & Ha & _)%search_from_Some.
  apply first_alt_key in Ha. lia.
Qed.

Lemma tokenize_loop_assoc self1 self2 alts code fn cl fuel start acc :
  (∀ key, key < length alts → _assoc self1 !! key = _assoc self2 !! key) →
  tokenize_loop self1 alts code fn cl fuel start acc
  = tokenize_loop self2 alts code fn cl fuel start acc.
Proof.
  intros Hk. revert start acc; induction fuel as [|fuel IH]; intros start acc;
    simpl; [done|].
  destruct (search alts code start) as [m|] eqn:E; [|done].
  pose proof (Hk _ (search_key _ _ _ _ E)) as Hkm.
  unfold post_processor in *. rewrite Hkm.
  match goal with
  | |- match ?x with _ => _ end = _ => destruct x as [[k func]|]
  end; [apply IH|reflexivity].
Qed.

Lemma add_keeps_regex (rules : list (K * pattern * option (post_processor K)))
    self :
  _regex (foldl (λ t r, fst (add t r.1.1 r.1.2 r.2)) self rules) = _regex self.
Proof.
  revert self; induction rules as [|r rules IH]; intros self; simpl; [done|].
  by rewrite IH.
Qed.

(** X5. [tokenize] works with the rules that [finalize] compiled.  A
    tokenizer that was never finalized raises [AttributeError] whatever
    rules were added, and a rule added after [finalize] changes no
    result of [tokenize]. *)
Theorem tokenize_uses_the_rules_of_finalize :
  (∀ (rules : list (K * pattern * option (post_processor K))) fuel code fn cl,
     tokenize (foldl (λ t r, fst (add t r.1.1 r.1.2 r.2)) init rules)
       fuel code fn cl
     = Raise AttributeError)
  ∧ (∀ self k rx func fuel code fn cl,
       constructed self →
       tokenize (fst (add (finalize self) k rx func)) fuel code fn cl
       = tokenize (finalize self) fuel code fn cl).
Proof.
  split.
  - intros. unfold tokenize. by rewrite add_keeps_regex.
  - intros self k rx func fuel code fn cl Hc. unfold tokenize. simpl.
    destruct (_regexs self) as [|rx0 alts] eqn:Hrx; [done|]. rewrite <- Hrx.
    apply tokenize_loop_assoc. intros key Hkey. simpl.
    destruct (constructed_lengths _ Hc) as [Hlen _].
    apply lookup_app_l. unfold post_processor in *. lia.
Qed.

Lemma tokenize_loop_tokens self alts code fn cl fuel start acc toks :
  Forall pattern_sound alts →
  start ≤ String.length code →
  tokenize_loop self alts code fn cl fuel start acc = Ret toks →
  ∃ new, toks = acc ++ new
         ∧ length new ≤ String.length code - start
         ∧ ((∀ k f, (k, f) ∈ _assoc self → f = None) →
            ∀ t, t ∈ new →
                 ∃ a b, start ≤ a ∧ a < b ≤ String.length code
                        ∧ value t = Py.str_slice code a b
                        ∧ (∃ key, _assoc self !! key = Some (kind t, None))).
Proof.
  intros Hs. revert start acc; induction fuel as [|fuel IH]; intros start acc Hstart;
    simpl; [done|].
  destruct (search alts code start) as [m|] eqn:E.
  - unfold search in E. rewrite Nat.min_l in E by done.
    apply search_from_Some in E as (Hp & Ha & _).
    pose proof (first_alt_sound _ _ _ _ _ _ Hs Ha) as He.
    destruct (_assoc self !! lastgroup m) as [[k func]|] eqn:El; [|done].
    intros H. destruct (decide (m_end m = m_start m)) as [Hempty|Hne].
    { exfalso. rewrite Hempty in Ha.
      eapply (tokenize_loop_stuck self alts code fn cl (m_start m)); [lia|done|].
      rewrite Hempty in H. by eexists. }
    apply IH in H as (new & -> & Hlen & Hval); [|lia].
    destruct func as [f|].
    + destruct (f _) as [t|].
      * exists (t :: new). split_and!; [by rewrite <- app_assoc|simpl; lia|].
        intros Hf. apply list_elem_of_lookup_2, Hf in El. done.
      * exists new. split_and!; [done|lia|].
        intros Hf. apply list_elem_of_lookup_2, Hf in El. done.
    + eexists (_ :: new). split_and!; [by rewrite <- app_assoc|simpl; lia|].
      intros Hf t [->|Ht]%elem_of_cons.
      * exists (m_start m), (m_end m). simpl. split_and!; [lia|lia|lia|done|].
        by exists (lastgroup m).
      * destruct (Hval Hf t Ht) as (a & b & ? & ? & ? & ?).
        exists a, b. split_and!; [lia|lia|lia|done|done].
  - intros [= <-]. exists []. split_and!; [by rewrite app_nil_r|simpl; lia|].
    intros _ t Ht. by apply elem_of_nil in Ht.
Qed.

(** X6. When every rule matches inside the text, a run of [tokenize] that
    returns gives at most as many tokens as the text has characters. *)
Theorem tokenize_returns_at_most_one_token_per_character
    self alts fuel code fn cl toks :
  _regex self = Some alts →
  Forall pattern_sound alts →
  tokenize self fuel code fn cl = Ret toks →
  length toks ≤ String.length code.
Proof.
  intros Hr Hs (alts' & Hr' & _ & H)%tokenize_Ret.
  rewrite Hr in Hr'. injection Hr' as <-.
  apply tokenize_loop_tokens in H as (new & -> & Hlen & _); [|done|lia].
  simpl. lia.
Qed.

(** X7. Without post-processors every token that [tokenize] returns has
    as value a slice [code[a:b]] of the text that is not empty, and as
    kind a kind that [add] registered. *)
Theorem token_values_are_nonempty_slices self alts fuel code fn cl toks :
  _regex self = Some alts →
  Forall pattern_sound alts →
  (∀ k f, (k, f) ∈ _assoc self → f = None) →
  tokenize self fuel code fn cl = Ret toks →
  ∀ t, t ∈ toks →
       ∃ a b, a < b ≤ String.length code
              ∧ value t = Py.str_slice code a b
              ∧ String.length (value t) = b - a
              ∧ ∃ key, _assoc self !! key = Some (kind t, None).
Proof.
  intros Hr Hs Hf (alts' & Hr' & _ & H)%tokenize_Ret.
  rewrite Hr in Hr'. injection Hr' as <-.
  apply tokenize_loop_tokens in H as (new & -> & _ & Hval); [|done|lia].
  intros t Ht. destruct (Hval Hf t Ht) as (a & b & _ & Hab & Hv & Hk).
  exists a, b. split_and!; [lia|lia|done| |done].
  rewrite Hv. apply str_slice_length. lia.
Qed.

End TokenizerMore.

Lemma tokenize_returns_at_most_one_token_per_character_witness :
  ∃ toks, tokenize Sample.words_and_numbers 9 "ab 12;cd" None false = Ret toks
          ∧ length toks ≤ 8.
Proof.
  eexists. split; [vm_compute; reflexivity|].
  apply (tokenize_returns_at_most_one_token_per_character
           Sample.words_and_numbers
           [Sample.one_or_more Sample.is_lower; Sample.one_or_more Sample.is_digit]
           9 "ab 12;cd" None false).
  - reflexivity.
  - repeat (apply Forall_cons_2; [apply one_or_more_sound|]). apply Forall_nil_2.
  - vm_compute. reflexivity.
Defined.

Lemma token_values_are_nonempty_slices_witness :
  ∃ toks,
    tokenize Sample.words_and_numbers 9 "ab 12;cd" None false = Ret toks
    ∧ ∀ t, t ∈ toks →
           ∃ a b, a < b ≤ 8
                  ∧ value t = Py.str_slice "ab 12;cd" a b
                  ∧ String.length (value t) = b - a
                  ∧ ∃ key, _assoc Sample.words_and_numbers !! key
                           = Some (kind t, None).
Proof.
  eexists. split; [vm_compute; reflexivity|].
  apply (token_values_are_nonempty_slices
           Sample.words_and_numbers
           [Sample.one_or_more Sample.is_lower; Sample.one_or_more Sample.is_digit]
           9 "ab 12;cd" None false).
  - reflexivity.
  - repeat (apply Forall_cons_2; [apply one_or_more_sound|]). apply Forall_nil_2.
  - intros k f H. simpl in H.
    repeat (apply elem_of_cons in H as [[= -> ->]|H]; [done|]).
    by apply elem_of_nil in H.
  - vm_compute. reflexivity.
Defined.

(** ** describe_location, continued *)

Lemma describe_lines_none file_name start end_ lines lineno count :
  describe_lines file_name start end_ lines lineno count = None
  ↔ (start < Z.of_nat count
     ∨ Z.of_nat (count + line_start lines (length lines)) ≤ start)%Z.
Proof.
  revert lineno count; induction lines as [|line lines IH]; intros lineno count.
  - simpl. unfold line_start. simpl. split; [lia|done].
  - assert (line_start (line :: lines) (length (line :: lines))
            = String.length line + 1 + line_start lines (length lines)) as ->
      by done.
    simpl.
    destruct (Z.leb_spec (Z.of_nat count) start);
      destruct (Z.leb_spec start (Z.of_nat (count + String.length line))); simpl.
    + split; [done|lia].
    + rewrite IH. lia.
    + rewrite IH. lia.
    + rewrite IH. lia.
Qed.

(** X8. For a file that exists, [describe_location] falls out of its loop
    and returns [None] exactly when the start offset is negative or is
    not below the sum of the line lengths, each counted with one
    terminator. *)
Theorem describe_location_finds_no_line_outside_the_text
    (file_exists : option string → bool) (read_file : option string → string)
    (file_name : option string) (start end_ : Z) :
  file_exists file_name = true →
  let lines := splitlines (read_file file_name) in
  describe_location file_exists read_file (Some (file_name, (start, end_))) = None
  ↔ (start < 0 ∨ Z.of_nat (line_start lines (length lines)) ≤ start)%Z.
Proof.
  intros Hex lines. unfold describe_location. rewrite Hex. simpl.
  by rewrite describe_lines_none.
Qed.

Lemma describe_location_finds_no_line_outside_the_text_witness :
  describe_location Sample.any_file Sample.ab_cd (Some (Some "f", (6, 6)%Z)) = None
  ↔ (6 < 0 ∨ Z.of_nat (line_start (splitlines (Sample.ab_cd (Some "f"))) 2) ≤ 6)%Z.
Proof.
  apply (describe_location_finds_no_line_outside_the_text
           Sample.any_file Sample.ab_cd (Some "f") 6 6).
  reflexivity.
Defined.

Lemma get_app_l (s1 s2 : string) n :
  n < String.length s1 → String.get n (s1 +:+ s2) = String.get n s1.
Proof. intros H. symmetry. by apply String.append_correct1. Qed.

Lemma get_app_r (s1 s2 : string) n :
  String.length s1 ≤ n →
  String.get n (s1 +:+ s2) = String.get (n - String.length s1) s2.
Proof.
  intros H. rewrite (String.append_correct2 s1 s2 (n - String.length s1)).
  f_equal. lia.
Qed.

Lemma get_Some_lt s n c : String.get n s = Some c → n < String.length s.
Proof.
  revert n; induction s as [|a s IH]; intros [|n]; simpl; try done; [lia|].
  intros H%IH. lia.
Qed.

Lemma length_append (s1 s2 : string) :
  String.length (s1 +:+ s2) = String.length s1 + String.length s2.
Proof. induction s1 as [|c s1 IH]; [done|]. rewrite append_cons. simpl. by rewrite IH. Qed.

Lemma splitlines_go_get s cur after_cr p c :
  (after_cr = true → String.get 0 s ≠ Some "010"%char) →
  (∀ i, String.get i s = Some "013"%char → String.get (S i) s ≠ Some "010"%char) →
  String.get p (cur +:+ s) = Some c →
  is_linebreak c = false →
  let lines := splitlines_go s cur after_cr in
  ∃ k line,
    lines !! k = Some line
    ∧ line_start lines k ≤ p < line_start lines k + String.length line
    ∧ String.get (p - line_start lines k) line = Some c.
Proof.
  revert cur after_cr p; induction s as [|a s IH]; intros cur after_cr p Hac Hcr Hp Hc.
  - rewrite append_nil_r in Hp. apply get_Some_lt in Hp as Hlt. simpl.
    destruct cur as [|c0 cur]; [simpl in Hlt; lia|]. simpl.
    exists 0, (String c0 cur). unfold line_start. simpl in *.
    rewrite Nat.sub_0_r. split_and!; [done|lia|lia|done].
  - simpl.
    assert (after_cr && (nat_of_ascii a =? 10) = false) as ->.
    { destruct after_cr; [|done]. simpl. apply Nat.eqb_neq. intros Ha.
      apply (Hac eq_refl). simpl. f_equal.
      rewrite <- (ascii_nat_embedding a), Ha. done. }
    destruct (is_linebreak a) eqn:Hlb.
    + destruct (Nat.lt_ge_cases p (String.length cur)) as [Hlt|Hge].
      * rewrite get_app_l in Hp by done.
        exists 0, cur. unfold line_start. simpl. rewrite Nat.sub_0_r.
        split_and!; [done|lia|lia|done].
      * rewrite get_app_r in Hp by done.
        destruct (p - String.length cur) as [|q] eqn:Hq; simpl in Hp.
        { injection Hp as ->. congruence. }
        destruct (IH "" (nat_of_ascii a =? 13) q) as (k & line & Hk & Hin & Hget).
        -- intros Ha%Nat.eqb_eq. apply (Hcr 0). simpl. f_equal.
           rewrite <- (ascii_nat_embedding a), Ha. done.
        -- intros i. apply (Hcr (S i)).
        -- done.
        -- done.
        -- exists (S k), line.
           assert (∀ lines', line_start (cur :: lines') (S k)
                             = String.length cur + 1 + line_start lines' k) as Hls
             by done.
           rewrite Hls. split_and!; [done|lia|lia|].
           rewrite <- Hget. f_equal. lia.
    + apply IH.
      * done.
      * intros i. apply (Hcr (S i)).
      * by rewrite append_assoc.
      * done.
Qed.

(** X9. In a file that exists and holds no carriage return followed by a
    line feed, a start offset at a character that is no line break is
    described by the line holding that character: the start offset is
    the offset at which that line starts plus the column of the
    character in it, and the description names that line, indents the
    underline by that column and ends it at the line's last character or
    at the end offset, whichever comes first. *)
Theorem describe_location_points_at_the_start_character
    (file_exists : option string → bool) (read_file : option string → string)
    (file_name : option string) (start : nat) (end_ : Z) (c : ascii) :
  file_exists file_name = true →
  (∀ i, String.get i (read_file file_name) = Some "013"%char →
        String.get (S i) (read_file file_name) ≠ Some "010"%char) →
  String.get start (read_file file_name) = Some c →
  is_linebreak c = false →
  ∃ lineno line column,
    splitlines (read_file file_name) !! lineno = Some line
    ∧ line_start (splitlines (read_file file_name)) lineno + column = start
    ∧ String.get column line = Some c
    ∧ describe_location file_exists read_file
        (Some (file_name, (Z.of_nat start, end_)))
      = Some (description file_name lineno line (Z.of_nat column)
                (Z.min (Z.of_nat (start - column + String.length line) - 1) end_
                 - Z.of_nat start + 1)).
Proof.
  intros Hex Hcr Hget Hc.
  destruct (splitlines_go_get (read_file file_name) "" false start c)
    as (k & line & Hk & Hin & Hcol); [done|done|done|done|].
  fold (splitlines (read_file file_name)) in *.
  set (lstart := line_start (splitlines (read_file file_name)) k) in *.
  exists k, line, (start - lstart). split_and!; [done|lia|done|].
  unfold describe_location. rewrite Hex. simpl.
  rewrite (describe_lines_found _ _ _ _ 0 0 k line Hk) by (simpl; lia).
  simpl. fold lstart. do 2 f_equal; lia.
Qed.

Lemma describe_location_points_at_the_start_character_witness :
  ∃ lineno line column,
    splitlines (Sample.ab_cd (Some "f")) !! lineno = Some line
    ∧ line_start (splitlines (Sample.ab_cd (Some "f"))) lineno + column = 3
    ∧ String.get column line = Some "c"%char
    ∧ describe_location Sample.any_file Sample.ab_cd (Some (Some "f", (3, 4)%Z))
      = Some (description (Some "f") lineno line (Z.of_nat column)
                (Z.min (Z.of_nat (3 - column + String.length line) - 1) 4
                 - 3 + 1)).
Proof.
  apply (describe_location_points_at_the_start_character
           Sample.any_file Sample.ab_cd (Some "f") 3 4 "c"%char).
  - reflexivity.
  - intros i H. do 5 (destruct i as [|i]; [discriminate H|]). discriminate H.
  - reflexivity.
  - reflexivity.
Defined.

(** ** Macro calls *)



Lemma actuals_loop_open n :
  ∀ (s : VStream) token value values,
    kind token ≠ RPAR →
    Forall (λ t, kind t ≠ RPAR) (drop (_idx s) (_tokens s)) →
    _idx s ≤ length (_tokens s) →
    length (_tokens s) - _idx s < n →
    actuals_loop n s token value values
    = (None, mkStream (_tokens s) (length (_tokens s))).
Proof.
  induction n as [|n IH]; intros s token value values Ht Hall Hi Hn; [lia|].
  simpl. apply is_kind_false in Ht. rewrite Ht.
  assert (∀ value' values',
    (let '(token', stream') := pop s in
     match token' with
     | Some token0 => actuals_loop n stream' token0 value' values'
     | None => (None, stream')
     end) = (None, mkStream (_tokens s) (length (_tokens s)))) as Hnext.
  { intros value' values'.
    destruct (decide (_idx s < length (_tokens s))) as [Hlt|Hge].
    - destruct (lookup_lt_is_Some_2 _ _ Hlt) as [t' Ht'].
      rewrite (pop_lookup _ _ Ht').
      rewrite (drop_S _ _ _ Ht') in Hall. apply Forall_cons in Hall as [? ?].
      rewrite IH; [done|done|done|simpl; lia|simpl; lia].
    - unfold pop. rewrite eof_true_length by lia.
      destruct s as [toks i]. simpl in *. f_equal. f_equal. lia. }
  destruct (is_kind token COMMA); apply Hnext.
Qed.

(** X11. For a macro with parameters [expand_from_stream] returns no token
    when the call is malformed.  At the end of the stream nothing is
    consumed; a next token that is no opening parenthesis is consumed;
    and after an opening parenthesis that is never closed the whole rest
    of the stream is consumed. *)
Theorem expand_from_stream_gives_up_on_a_malformed_call
    (self : Macro) (s : VStream) :
  args self ≠ [] →
  (eof s = true → expand_from_stream self s = ([], s))
  ∧ (∀ t, _tokens s !! _idx s = Some t → kind t ≠ LPAR →
          expand_from_stream self s = ([], advance s))
  ∧ (∀ lp, _tokens s !! _idx s = Some lp → kind lp = LPAR →
           Forall (λ t, kind t ≠ RPAR) (drop (S (_idx s)) (_tokens s)) →
           expand_from_stream self s
           = ([], mkStream (_tokens s) (length (_tokens s)))).
Proof.
  intros Ha. unfold expand_from_stream, num_args.
  destruct (args self) as [|a args']; [done|]. simpl.
  unfold _parse_macro_actuals. split_and!.
  - intros Heof. unfold pop. by rewrite Heof.
  - intros t Ht Hk. rewrite (pop_lookup _ _ Ht).
    apply is_kind_false in Hk. by rewrite Hk.
  - intros lp Hl Hk Hall. rewrite (pop_lookup _ _ Hl).
    apply is_kind_true in Hk. rewrite Hk. cbv beta iota zeta delta [negb].
    apply lookup_lt_Some in Hl as Hlt.
    destruct (decide (S (_idx s) < length (_tokens s))) as [Hlt'|Hge].
    + destruct (lookup_lt_is_Some_2 _ _ Hlt') as [t' Ht'].
      rewrite (pop_lookup (advance s) t' Ht').
      rewrite (drop_S _ _ _ Ht') in Hall. apply Forall_cons in Hall as [? ?].
      rewrite actuals_loop_open; [done|done|done| |].
      { simpl. lia. }
      { simpl. lia. }
    + unfold pop. rewrite eof_true_length by (simpl; lia).
      cbv beta iota zeta. unfold advance. simpl. do 2 f_equal. lia.
Qed.

(** ** Expansion, continued *)

Lemma expand_loop_covered self values body acc :
  length (args self) ≤ length values →
  expand_loop self values body acc
  = acc ++ concat
      ((λ t : VToken,
          if is_kind t IDENTIFIER then
            match Py.index_of (value t) (args self) with
            | Some i => default [] (values !! i)
            | None => [t]
            end
          else [t]) <$> body).
Proof.
  intros Hlen. revert acc; induction body as [|t body IH]; intros acc.
  - simpl. by rewrite app_nil_r.
  - rewrite expand_loop_cons. unfold substitute. cbn [fmap list_fmap concat].
    destruct (is_kind t IDENTIFIER).
    + destruct (Py.index_of (value t) (args self)) as [i|] eqn:Hi.
      * apply index_of_lt in Hi.
        rewrite (proj2 (Nat.ltb_lt i (length values))) by lia.
        destruct (lookup_lt_is_Some_2 values i) as [v ->]; [lia|]. simpl.
        by rewrite IH, app_assoc.
      * by rewrite IH, app_assoc.
    + by rewrite IH, app_assoc.
Qed.

(** X12. Given at least as many values as the macro has parameters,
    [expand] replaces every identifier of the body that names a
    parameter by the value at the parameter's position and keeps every
    other token.  Values beyond the parameters are ignored, and so are
    the defaults. *)
Theorem expand_substitutes_actuals_by_position (self : Macro)
    (values : list (list VToken)) :
  length (args self) ≤ length values →
  expand self values
  = concat
      ((λ t : VToken,
          if is_kind t IDENTIFIER then
            match Py.index_of (value t) (args self) with
            | Some i => default [] (values !! i)
            | None => [t]
            end
          else [t]) <$> tokens self)
  ∧ (∀ extra, expand self (values ++ extra) = expand self values)
  ∧ (∀ defaults',
       expand {| name := name self; tokens := tokens self; args := args self;
                 defaults := defaults' |} values
       = expand self values).
Proof.
  intros Hlen. unfold expand. split_and!.
  - by rewrite expand_loop_covered.
  - intros extra.
    rewrite !expand_loop_covered by (rewrite ?length_app; lia).
    do 2 f_equal. apply list_fmap_ext. intros _ t _.
    destruct (is_kind t IDENTIFIER); [|done].
    destruct (Py.index_of (value t) (args self)) as [i|] eqn:Hi; [|done].
    apply index_of_lt in Hi. rewrite lookup_app_l by lia. done.
  - intros defaults'. by rewrite !expand_loop_covered.
Qed.

Lemma expand_substitutes_actuals_by_position_witness :
  expand Sample.foo_without_default
    [[Sample.T Sample.INTEGER "1"]; [Sample.T Sample.INTEGER "2"]]
  = [Sample.T Sample.INTEGER "1"; Sample.sp; Sample.T Sample.INTEGER "2"].
Proof.
  apply (proj1 (expand_substitutes_actuals_by_position Sample.foo_without_default
                  [[Sample.T Sample.INTEGER "1"]; [Sample.T Sample.INTEGER "2"]]
                  ltac:(simpl; lia))).
Defined.

Lemma elem_of_concat {A} (x : A) (ls : list (list A)) :
  x ∈ concat ls → ∃ l, x ∈ l ∧ l ∈ ls.
Proof.
  induction ls as [|l ls IH]; simpl; [by intros ?%elem_of_nil|].
  intros [H|H]%elem_of_app.
  - exists l. split; [done|]. apply elem_of_cons. by left.
  - destruct (IH H) as (l' & ? & ?). exists l'. split; [done|].
    apply elem_of_cons. by right.
Qed.

(** X13. [expand] makes no token of its own: every token of its result is
    a token of the macro body, of one of the given values or of one of
    the defaults. *)
Theorem expand_emits_only_body_actual_and_default_tokens (self : Macro)
    (values : list (list VToken)) (t : VToken) :
  t ∈ expand self values →
  t ∈ tokens self
  ∨ (∃ v, v ∈ values ∧ t ∈ v)
  ∨ (∃ k d, defaults self !! k = Some d ∧ t ∈ d).
Proof.
  unfold expand. rewrite expand_loop_substitute.
  destruct (mapM (substitute self values) (tokens self)) as [outs|] eqn:E;
    [|by intros ?%elem_of_nil].
  apply mapM_Some_1 in E. simpl.
  intros (out & Ht & Hout)%elem_of_concat.
  destruct (proj1 (list_elem_of_lookup _ _) Hout) as [i Hi].
  destruct (Forall2_lookup_r _ _ _ _ _ E Hi) as (x & Hx & Hs).
  unfold substitute in Hs.
  destruct (is_kind x IDENTIFIER).
  - destruct (Py.index_of (value x) (args self)) as [j|].
    + destruct (j <? length values).
      * right; left. exists out. split; [|done]. by eapply list_elem_of_lookup_2.
      * right; right. by exists (value x), out.
    + injection Hs as <-. apply list_elem_of_singleton in Ht as ->.
      left. by eapply list_elem_of_lookup_2.
  - injection Hs as <-. apply list_elem_of_singleton in Ht as ->.
    left. by eapply list_elem_of_lookup_2.
Qed.

(** ** How the functions move the cursor *)

Section Consumed.
Context {K : Type} `{EqDecision K}.
Implicit Types (s : TokenStream K).

Lemma consumed_refl s : consumed s s.
Proof. by split_and!. Qed.

Lemma consumed_trans s1 s2 s3 : consumed s1 s2 → consumed s2 s3 → consumed s1 s3.
Proof.
  intros (Ht1 & Hi1 & Hl1) (Ht2 & Hi2 & Hl2). rewrite Ht1 in *.
  split_and!; [congruence|lia|]. intros. apply Hl2. by apply Hl1.
Qed.

Lemma pop_consumed s o s' : pop s = (o, s') → consumed s s'.
Proof.
  intros (Ht & [(_ & -> & _)|(_ & Hi & Hlt)])%pop_cases; [apply consumed_refl|].
  split_and!; [done|lia|lia].
Qed.

Lemma skip_while_consumed s kinds j s' :
  skip_while s kinds = (j, s') → consumed s s'.
Proof.
  unfold skip_while. intros [= _ <-].
  destruct (skip_while_loop_spec kinds (length (_tokens s) - _idx s) s)
    as (? & ? & ? & _).
  by split_and!.
Qed.

Lemma skip_until_consumed s kinds j s' :
  skip_until s kinds = (j, s') → consumed s s'.
Proof.
  unfold skip_until. intros [= _ <-].
  destruct (skip_until_loop_spec kinds (length (_tokens s) - _idx s) s)
    as (? & ? & ? & _).
  by split_and!.
Qed.

End Consumed.

Lemma actuals_loop_consumed n (s : VStream) token value values o s' :
  actuals_loop n s token value values = (o, s') → consumed s s'.
Proof.
  revert s token value values; induction n as [|n IH]; intros s token value values;
    simpl.
  - destruct (is_kind token RPAR); intros [= _ <-]; apply consumed_refl.
  - destruct (is_kind token RPAR); [intros [= _ <-]; apply consumed_refl|].
    destruct (is_kind token COMMA);
      (destruct (pop s) as [[t|] s1] eqn:Hp; apply pop_consumed in Hp;
       [intros H%IH; by eapply consumed_trans|by intros [= _ <-]]).
Qed.

Lemma parse_macro_actuals_consumed (s : VStream) o s' :
  _parse_macro_actuals s = (o, s') → consumed s s'.
Proof.
  unfold _parse_macro_actuals.
  destruct (pop s) as [[t|] s1] eqn:Hp1; apply pop_consumed in Hp1;
    [|by intros [= _ <-]].
  destruct (negb (is_kind t LPAR)); [by intros [= _ <-]|].
  destruct (pop s1) as [[t2|] s2] eqn:Hp2; apply pop_consumed in Hp2;
    [|intros [= _ <-]; by eapply consumed_trans].
  intros H%actuals_loop_consumed.
  eapply consumed_trans; [done|]. by eapply consumed_trans.
Qed.

Lemma expand_from_stream_consumed (self : Macro) (s : VStream) out s' :
  expand_from_stream self s = (out, s') → consumed s s'.
Proof.
  unfold expand_from_stream. destruct (num_args self =? 0).
  - intros [= _ <-]. apply consumed_refl.
  - destruct (_parse_macro_actuals s) as [[vs|] s1] eqn:Hp;
      apply parse_macro_actuals_consumed in Hp; by intros [= _ <-].
Qed.

(** What the parameter list keeps true of the parameters and defaults
    collected so far. *)
Lemma define_args_keeps n (s : VStream) token args defaults args' defaults' s' :
  (∀ k d, defaults !! k = Some d → k ∈ args ∧ length d = 1) →
  define_args n s token args defaults = (Some (args', defaults'), s') →
  (∀ k d, defaults' !! k = Some d → k ∈ args' ∧ length d = 1)
  ∧ args `prefix_of` args'.
Proof.
  revert s token args defaults; induction n as [|n IH];
    intros s token args defaults Hinv; simpl.
  - destruct (is_kind token RPAR); [|done]. by intros [= <- <- _].
  - destruct (is_kind token RPAR); [by intros [= <- <- _]|].
    assert (∀ k d, defaults !! k = Some d →
                   k ∈ args ++ [value token] ∧ length d = 1) as Hinv'.
    { intros k d [? ?]%Hinv. split; [|done]. apply elem_of_app. by left. }
    destruct (is_kind token IDENTIFIER).
    + destruct (pop s) as [[t1|] s1]; [|done].
      destruct (is_kind t1 EQUAL).
      * destruct (pop s1) as [t2 s2].
        destruct (pop s2) as [[t3|] s3]; [|done].
        intros [Hd Hp]%IH.
        { split; [done|]. etrans; [|done]. by apply prefix_app_r. }
        destruct t2 as [t2|]; [|done].
        intros k d. destruct (decide (k = value token)) as [->|Hne].
        -- rewrite lookup_insert_eq. intros [= <-]. split; [|done].
           apply elem_of_app. right. by apply list_elem_of_singleton.
        -- rewrite lookup_insert_ne by done. apply Hinv'.
      * intros [Hd Hp]%IH; [|done].
        split; [done|]. etrans; [|done]. by apply prefix_app_r.
    + destruct (pop s) as [[t1|] s1]; [|done]. by apply IH.
Qed.

Lemma define_args_consumed n (s : VStream) token args defaults o s' :
  define_args n s token args defaults = (o, s') → consumed s s'.
Proof.
  revert s token args defaults; induction n as [|n IH];
    intros s token args defaults; simpl.
  - destruct (is_kind token RPAR); intros [= _ <-]; apply consumed_refl.
  - destruct (is_kind token RPAR); [intros [= _ <-]; apply consumed_refl|].
    destruct (is_kind token IDENTIFIER).
    + destruct (pop s) as [[t1|] s1] eqn:Hp1; apply pop_consumed in Hp1;
        [|by intros [= _ <-]].
      destruct (is_kind t1 EQUAL).
      * destruct (pop s1) as [t2 s2] eqn:Hp2; apply pop_consumed in Hp2.
        destruct (pop s2) as [[t3|] s3] eqn:Hp3; apply pop_consumed in Hp3.
        -- intros H%IH.
           eapply consumed_trans; [done|]. eapply consumed_trans; [done|].
           by eapply consumed_trans.
        -- intros [= _ <-].
           eapply consumed_trans; [done|]. by eapply consumed_trans.
      * intros H%IH. by eapply consumed_trans.
    + destruct (pop s) as [[t1|] s1] eqn:Hp1; apply pop_consumed in Hp1;
        [|by intros [= _ <-]].
      intros H%IH. by eapply consumed_trans.
Qed.

(** ** What [define] returns *)

Lemma pop_Some_inv {K} (s : TokenStream K) t s' :
  pop s = (Some t, s') → _tokens s !! _idx s = Some t ∧ s' = advance s.
Proof.
  unfold pop. destruct (eof s); [done|]. by intros [= -> <-].
Qed.

Lemma kind_in_singleton {K} `{EqDecision K} (t : Token K) (k : K) :
  kind_in t [k] = false ↔ kind t ≠ k.
Proof.
  unfold kind_in. simpl. rewrite orb_false_r. apply bool_decide_eq_false.
Qed.

(** The body that [define] cuts out between the two skips. *)
Lemma define_body (s3 s5 s6 s7 : VStream) i5 end_ :
  _idx s3 ≤ length (_tokens s3) →
  skip_while s3 [WHITESPACE] = (i5, s5) →
  skip_until s5 [NEWLINE] = (end_, s6) →
  _tokens s7 = _tokens s6 →
  let body := slice s7 (idx s5) end_ in
  Forall (λ t, kind t ≠ NEWLINE) body
  ∧ (∀ t, head body = Some t → kind t ≠ WHITESPACE)
  ∧ consumed s3 s6.
Proof.
  intros Hlen Hw Hu Ht7 body. subst body. unfold idx.
  apply skip_while_consumed in Hw as Hc5.
  apply skip_until_consumed in Hu as Hc6.
  unfold skip_while in Hw. injection Hw as _ Hs5.
  unfold skip_until in Hu. injection Hu as He Hs6.
  destruct (skip_while_loop_spec [WHITESPACE] (length (_tokens s3) - _idx s3) s3)
    as (Ht5 & Hi5 & Hl5 & _ & Hout5).
  rewrite Hs5 in *.
  destruct (skip_until_loop_spec [NEWLINE] (length (_tokens s5) - _idx s5) s5)
    as (Ht6 & Hi6 & Hl6 & Hin6 & _).
  rewrite Hs6 in *. subst end_.
  assert (_idx s5 ≤ _idx s6 ≤ length (_tokens s7)) as Hse.
  { rewrite Ht7, Ht6. split; [done|]. apply Hl6. rewrite Ht5. by apply Hl5. }
  destruct (slice_lookup s7 (_idx s5) (_idx s6) Hse) as [Hblen Hb].
  split_and!.
  - apply Forall_lookup. intros i t Hi.
    assert (i < _idx s6 - _idx s5) as Hlt.
    { apply lookup_lt_Some in Hi. lia. }
    rewrite (Hb i Hlt), Ht7, Ht6 in Hi.
    apply kind_in_singleton. apply (Hin6 (_idx s5 + i)); [lia|done].
  - intros t Hh. rewrite head_lookup in Hh.
    assert (0 < _idx s6 - _idx s5) as Hlt.
    { apply lookup_lt_Some in Hh. lia. }
    rewrite (Hb 0 Hlt), Nat.add_0_r, Ht7, Ht6 in Hh.
    apply kind_in_singleton. apply Hout5; [lia|]. by rewrite <- Ht5.
  - by eapply consumed_trans.
Qed.

Lemma pop_None_inv {K} (s : TokenStream K) s' :
  pop s = (None, s') → _tokens s !! _idx s = None ∧ s' = s.
Proof.
  unfold pop, eof. destruct (Nat.ltb_spec (_idx s) (length (_tokens s))) as [Hlt|Hge];
    simpl.
  - destruct (lookup_lt_is_Some_2 _ _ Hlt) as [t ->]. done.
  - intros [= <-]. split; [|done]. by apply lookup_ge_None.
Qed.

Lemma describe_location_call_None file_exists read_file :
  describe_location_call file_exists read_file None
  = Ret (Some "Unknown location").
Proof. reflexivity. Qed.

Section DefineProofs.
Variable file_exists : option string → outcome bool.
Variable read_file : option string → outcome string.

#[local] Abbreviation define := (define file_exists read_file).
#[local] Abbreviation describe_location_call :=
  (describe_location_call file_exists read_file).

(** The warning of [define] has the outcome [o]: there is no name to
    define and the location of the directive is described, or the token
    in the place of the name is no identifier and its location is
    described. *)
Lemma define_cases (define_token : VToken) (s : VStream) :
  let s1 := (skip_while s [WHITESPACE]).2 in
  let warned (o : outcome (option string)) : Prop :=
    (describe_location_call (location define_token) = o
     ∧ ∀ name_token, _tokens s1 !! _idx s1 = Some name_token →
                     kind name_token = NEWLINE)
    ∨ (∃ name_token,
         _tokens s1 !! _idx s1 = Some name_token
         ∧ kind name_token ≠ NEWLINE ∧ kind name_token ≠ IDENTIFIER
         ∧ describe_location_call (location name_token) = o) in
  match define define_token s with
  | Ret (None, s') => consumed s s'
  | Ret (Some m, s') =>
      consumed s s' ∧ _idx s < _idx s'
      ∧ (∀ k d, defaults m !! k = Some d → k ∈ args m ∧ length d = 1)
      ∧ Forall (λ t, kind t ≠ NEWLINE) (tokens m)
      ∧ (∀ t, head (tokens m) = Some t → kind t ≠ WHITESPACE)
  | Raise e =>
      (e = UnboundLocalError
       ∧ ∃ name_token token,
           _tokens s1 !! _idx s1 = Some name_token
           ∧ kind name_token = IDENTIFIER
           ∧ _tokens s1 !! S (_idx s1) = Some token
           ∧ kind token ≠ WHITESPACE ∧ kind token ≠ NEWLINE
           ∧ kind token ≠ LPAR)
      ∨ warned (Raise e)
  | OutOfFuel => warned OutOfFuel
  end.
Proof.
  intros s1' warned. subst s1'. unfold define.
  destruct (skip_while s [WHITESPACE]) as [i1 s1] eqn:Hw1.
  apply skip_while_consumed in Hw1 as Hc1. cbn [snd] in warned.
  destruct (pop s1) as [[nt|] s2] eqn:Hp2; apply pop_consumed in Hp2 as Hc2.
  2:{ apply pop_None_inv in Hp2 as [Hnone _].
      destruct (describe_location_call (location define_token)) as [d|e|] eqn:Hd;
        simpl.
      - by eapply consumed_trans.
      - right. left. split; [done|]. intros nt. by rewrite Hnone.
      - left. split; [done|]. intros nt. by rewrite Hnone. }
  apply pop_Some_inv in Hp2 as [Hnt ->].
  assert (consumed s (advance s1)) as Hc by (by eapply consumed_trans).
  destruct (is_kind nt NEWLINE) eqn:Hntnl.
  { apply is_kind_true in Hntnl.
    destruct (describe_location_call (location define_token)) as [d|e|] eqn:Hd;
      simpl.
    - done.
    - right. left. split; [done|]. intros nt'. rewrite Hnt. by intros [= <-].
    - left. split; [done|]. intros nt'. rewrite Hnt. by intros [= <-]. }
  apply is_kind_false in Hntnl.
  destruct (is_kind nt IDENTIFIER) eqn:Hid; cbn [negb].
  2:{ apply is_kind_false in Hid.
      destruct (describe_location_call (location nt)) as [d|e|] eqn:Hd; simpl.
      - done.
      - right. right. by exists nt.
      - right. by exists nt. }
  apply is_kind_true in Hid.
  assert (_idx s < _idx (advance s1)) as Hprog.
  { destruct Hc1 as (_ & ? & _). simpl. lia. }
  assert (_idx (advance s1) ≤ length (_tokens (advance s1))) as Hlen2.
  { apply lookup_lt_Some in Hnt. simpl. lia. }
  destruct (pop (advance s1)) as [[token|] s3] eqn:Hp3;
    apply pop_consumed in Hp3 as Hc3.
  2:{ split_and!; [by eapply consumed_trans|destruct Hc3 as (_ & ? & _); lia
                   |done|done|done]. }
  apply pop_Some_inv in Hp3 as [Htoken ->].
  set (s3 := advance (advance s1)) in *.
  assert (consumed s s3) as Hcs3 by (by eapply consumed_trans).
  assert (_idx s < _idx s3) as Hprog3 by (destruct Hc3 as (_ & ? & _); lia).
  assert (_idx s3 ≤ length (_tokens s3)) as Hlen3.
  { apply lookup_lt_Some in Htoken. simpl in *. lia. }
  (* the rest of the function, for locals found after the stream [s4] *)
  assert (∀ (s4 : VStream) locals,
    consumed s3 s4 →
    (∀ ad, locals = Some ad →
           ∀ k d, ad.2 !! k = Some d → k ∈ ad.1 ∧ length d = 1) →
    match
      (let '(_, stream) := skip_while s4 [WHITESPACE] in
       let start := idx stream in
       let '(end_, stream) := skip_until stream [NEWLINE] in
       let stream := if negb (eof stream) then (pop stream).2 else stream in
       match locals with
       | Some (args, defaults) =>
           Ret (Some {| name := value nt; tokens := slice stream start end_;
                        args := args; defaults := defaults |}, stream)
       | None => Raise UnboundLocalError
       end)
    with
    | Ret (None, s') => consumed s s'
    | Ret (Some m, s') =>
        consumed s s' ∧ _idx s < _idx s'
        ∧ (∀ k d, defaults m !! k = Some d → k ∈ args m ∧ length d = 1)
        ∧ Forall (λ t, kind t ≠ NEWLINE) (tokens m)
        ∧ (∀ t, head (tokens m) = Some t → kind t ≠ WHITESPACE)
    | Raise e => e = UnboundLocalError ∧ locals = None
    | OutOfFuel => False
    end) as Htail.
  { intros s4 locals Hc4 Hinv.
    destruct (skip_while s4 [WHITESPACE]) as [i5 s5] eqn:Hw5.
    destruct (skip_until s5 [NEWLINE]) as [end_ s6] eqn:Hu6.
    destruct locals as [[args defaults]|]; [|done].
    set (s7 := if negb (eof s6) then (pop s6).2 else s6).
    assert (consumed s6 s7) as Hc7.
    { unfold s7. destruct (negb (eof s6)); [|apply consumed_refl].
      destruct (pop s6) as [o s'] eqn:Hp. by apply pop_consumed in Hp. }
    assert (_idx s4 ≤ length (_tokens s4)) as Hlen4.
    { destruct Hc4 as (-> & _ & Hl). by apply Hl. }
    destruct (define_body s4 s5 s6 s7 i5 end_ Hlen4 Hw5 Hu6)
      as (Hnl & Hhead & Hc46); [by destruct Hc7|].
    assert (consumed s3 s7) as Hc37.
    { eapply consumed_trans; [done|]. by eapply consumed_trans. }
    split_and!; [by eapply consumed_trans|destruct Hc37 as (_ & ? & _); lia
                 | |done|done].
    simpl. by apply (Hinv (args, defaults)). }
  assert (∀ ad : list string * gmap string (list VToken),
            Some ([], ∅) = Some ad →
            ∀ k d, ad.2 !! k = Some d → k ∈ ad.1 ∧ length d = 1) as Hempty.
  { intros ad [= <-] k d. simpl. by rewrite lookup_empty. }
  destruct (is_kind token WHITESPACE || is_kind token NEWLINE) eqn:Hsep.
  - pose proof (Htail s3 (Some ([], ∅)) (consumed_refl _) Hempty) as Ht.
    cbv beta iota zeta in Ht |- *.
    match goal with
    | |- match ?scrut with _ => _ end => destruct scrut as [[[m|] s']|err|]
    end; [done|done| |done].
    by destruct Ht as [_ ?].
  - apply orb_false_iff in Hsep as [Hw Hn].
    destruct (is_kind token LPAR) eqn:Hl.
    + destruct (define_args _ s3 token [] ∅) as [[ad|] s4] eqn:Hda.
      * apply define_args_consumed in Hda as Hc4.
        destruct ad as [args defaults].
        apply define_args_keeps in Hda as [Hinv _];
          [|intros k d; by rewrite lookup_empty].
        assert (∀ ad', Some (args, defaults) = Some ad' →
                  ∀ k d, ad'.2 !! k = Some d → k ∈ ad'.1 ∧ length d = 1) as Hinv'.
        { by intros ad' [= <-]. }
        pose proof (Htail s4 (Some (args, defaults)) Hc4 Hinv') as Ht.
        cbv beta iota zeta in Ht |- *.
        match goal with
        | |- match ?scrut with _ => _ end => destruct scrut as [[[m|] s']|err|]
        end; [done|done| |done].
        by destruct Ht as [_ ?].
      * apply define_args_consumed in Hda. cbv beta iota zeta.
        by eapply consumed_trans.
    + pose proof (Htail s3 None (consumed_refl _) ltac:(done)) as Ht.
      cbv beta iota zeta in Ht |- *.
      match goal with
      | |- match ?scrut with _ => _ end => destruct scrut as [[[m|] s']|err|]
      end; [done|done| |done].
      left. split; [by apply Ht|]. exists nt, token. simpl.
      apply is_kind_false in Hw, Hn, Hl. done.
Qed.

(** X14. When [define] raises, one of three things has happened.  The
    name was followed at once by a token that is neither white space, a
    newline nor an opening parenthesis, and the exception is
    [UnboundLocalError].  Or there was no name, only the end of the
    stream or a newline, and the exception is the one of describing the
    location of the directive for the warning.  Or the token in the
    place of the name was no identifier, and the exception is the one of
    describing its location.  So when neither the directive nor a token
    of the stream carries a location, [UnboundLocalError] is the only
    exception. *)
Theorem define_raises_for_unassigned_locals_or_in_a_warning
    (define_token : VToken) (s : VStream) :
  let s1 := (skip_while s [WHITESPACE]).2 in
  let unassigned e :=
    e = UnboundLocalError
    ∧ ∃ name_token token,
        _tokens s1 !! _idx s1 = Some name_token
        ∧ kind name_token = IDENTIFIER
        ∧ _tokens s1 !! S (_idx s1) = Some token
        ∧ kind token ≠ WHITESPACE ∧ kind token ≠ NEWLINE
        ∧ kind token ≠ LPAR in
  (∀ e, define define_token s = Raise e →
        unassigned e
        ∨ (describe_location_call (location define_token) = Raise e
           ∧ ∀ name_token, _tokens s1 !! _idx s1 = Some name_token →
                           kind name_token = NEWLINE)
        ∨ (∃ name_token,
             _tokens s1 !! _idx s1 = Some name_token
             ∧ kind name_token ≠ NEWLINE ∧ kind name_token ≠ IDENTIFIER
             ∧ describe_location_call (location name_token) = Raise e))
  ∧ (location define_token = None →
     Forall (λ t, location t = None) (_tokens s) →
     define define_token s ≠ OutOfFuel
     ∧ ∀ e, define define_token s = Raise e → unassigned e).
Proof.
  intros s1 unassigned. pose proof (define_cases define_token s) as H.
  cbv zeta in H. fold s1 in H. split.
  - intros e E. rewrite E in H. exact H.
  - intros Hd Hs.
    assert (∀ o, o ≠ Ret (Some "Unknown location") →
      ¬ ((describe_location_call (location define_token) = o
          ∧ ∀ name_token, _tokens s1 !! _idx s1 = Some name_token →
                          kind name_token = NEWLINE)
         ∨ (∃ name_token,
              _tokens s1 !! _idx s1 = Some name_token
              ∧ kind name_token ≠ NEWLINE ∧ kind name_token ≠ IDENTIFIER
              ∧ describe_location_call (location name_token) = o)))
      as Hno.
    { intros o Ho [[Hw _]|(nt & Hnt & _ & _ & Hw)].
      - rewrite Hd in Hw. by rewrite describe_location_call_None in Hw.
      - assert (_tokens s1 = _tokens s) as Hts.
        { unfold s1. destruct (skip_while s [WHITESPACE]) as [i s'] eqn:Hw1.
          by destruct (skip_while_consumed _ _ _ _ Hw1). }
        rewrite Hts in Hnt.
        eapply Forall_lookup_1 in Hs; [|exact Hnt]. simpl in Hs.
        rewrite Hs in Hw. by rewrite describe_location_call_None in Hw. }
    split.
    + intros E. rewrite E in H. by apply (Hno OutOfFuel).
    + intros e E. rewrite E in H. destruct H as [H|H]; [done|].
      by apply (Hno (Raise e)) in H.
Qed.

(** X15. When [define] returns a macro it has consumed at least one token
    and changed none.  Every default of the macro belongs to one of its
    parameters and is a single token; the body holds no newline and does
    not begin with white space. *)
Theorem define_returns_a_well_formed_macro (define_token : VToken)
    (s s' : VStream) (m : Macro) :
  define define_token s = Ret (Some m, s') →
  consumed s s'
  ∧ _idx s < _idx s'
  ∧ (∀ k d, defaults m !! k = Some d → k ∈ args m ∧ length d = 1)
  ∧ Forall (λ t, kind t ≠ NEWLINE) (tokens m)
  ∧ (∀ t, head (tokens m) = Some t → kind t ≠ WHITESPACE).
Proof.
  intros E. pose proof (define_cases define_token s) as H. cbv zeta in H.
  by rewrite E in H.
Qed.

End DefineProofs.

(** The warning of a [`define] without a name fails when the directive
    has a location without a file name. *)
Example define_warning_raises :
  define Sample.file_exists Sample.read_file Sample.located_define
    (mkStream [Sample.located_define] 1)
  = Raise TypeError.
Proof. reflexivity. Qed.

Lemma define_returns_a_well_formed_macro_witness :
  ∃ s',
    define Sample.file_exists Sample.read_file
      (Sample.T PREPROCESSOR "define") (mkStream Sample.default_for_second 1)
    = Ret (Some Sample.foo_with_default, s')
    ∧ consumed (mkStream Sample.default_for_second 1) s'
    ∧ 1 < _idx s'
    ∧ (∀ k d, defaults Sample.foo_with_default !! k = Some d →
              k ∈ args Sample.foo_with_default ∧ length d = 1)
    ∧ Forall (λ t, kind t ≠ NEWLINE) (tokens Sample.foo_with_default)
    ∧ (∀ t, head (tokens Sample.foo_with_default) = Some t →
            kind t ≠ WHITESPACE).
Proof.
  eexists. split; [vm_compute; reflexivity|].
  apply (define_returns_a_well_formed_macro
           Sample.file_exists Sample.read_file (Sample.T PREPROCESSOR "define")).
  vm_compute. reflexivity.
Defined.

(** ** Skipping over a known run of tokens *)

Section SkipPrefix.
Context {K : Type} `{EqDecision K}.
Implicit Types (s : TokenStream K) (kinds : list K).

Lemma drop_lookup_app (l : list (Token K)) i pre rest j :
  drop i l = pre ++ rest → j < length pre → l !! (i + j) = pre !! j.
Proof.
  intros Hd Hj. by rewrite <- lookup_drop, Hd, lookup_app_l.
Qed.

Lemma drop_lookup_head (l : list (Token K)) i pre rest :
  drop i l = pre ++ rest → l !! (i + length pre) = head rest.
Proof.
  intros Hd. rewrite <- lookup_drop, Hd, lookup_app_r, Nat.sub_diag by done.
  by rewrite head_lookup.
Qed.

Lemma drop_length_app (l : list (Token K)) i pre rest :
  drop i l = pre ++ rest → i ≤ length l →
  i + length pre + length rest = length l.
Proof.
  intros Hd Hi. apply (f_equal length) in Hd.
  rewrite length_drop, length_app in Hd. lia.
Qed.

Lemma skip_while_prefix kinds s pre rest :
  drop (_idx s) (_tokens s) = pre ++ rest →
  _idx s ≤ length (_tokens s) →
  Forall (λ t, kind_in t kinds = true) pre →
  (∀ t, head rest = Some t → kind_in t kinds = false) →
  skip_while s kinds
  = (_idx s + length pre, mkStream (_tokens s) (_idx s + length pre)).
Proof.
  intros Hd Hi Hpre Hrest.
  pose proof (drop_length_app _ _ _ _ Hd Hi) as Hlen.
  apply skip_while_to; [lia| | |lia].
  - intros i t Hi' Ht.
    replace i with (_idx s + (i - _idx s)) in Ht by lia.
    rewrite (drop_lookup_app _ _ _ _ _ Hd) in Ht by lia.
    by eapply Forall_lookup_1 in Hpre.
  - intros t Ht. rewrite (drop_lookup_head _ _ _ _ Hd) in Ht. by apply Hrest.
Qed.

Lemma skip_until_prefix kinds s pre rest :
  drop (_idx s) (_tokens s) = pre ++ rest →
  _idx s ≤ length (_tokens s) →
  Forall (λ t, kind_in t kinds = false) pre →
  (∀ t, head rest = Some t → kind_in t kinds = true) →
  skip_until s kinds
  = (_idx s + length pre, mkStream (_tokens s) (_idx s + length pre)).
Proof.
  intros Hd Hi Hpre Hrest.
  pose proof (drop_length_app _ _ _ _ Hd Hi) as Hlen.
  unfold skip_until.
  destruct (skip_until_loop_spec kinds (length (_tokens s) - _idx s) s)
    as (Ht & Hlo & Hhi & Hin & Hout).
  set (s' := skip_until_loop kinds (length (_tokens s) - _idx s) s) in *.
  assert (_idx s' = _idx s + length pre) as Hj.
  { destruct (Nat.lt_trichotomy (_idx s') (_idx s + length pre)) as [Hlt|[?|Hgt]];
      [|done|].
    - destruct (lookup_lt_is_Some_2 (_tokens s) (_idx s')) as [t Hts]; [lia|].
      pose proof (Hout ltac:(lia) t Hts) as Hk.
      replace (_idx s') with (_idx s + (_idx s' - _idx s)) in Hts by lia.
      rewrite (drop_lookup_app _ _ _ _ _ Hd) in Hts by lia.
      eapply Forall_lookup_1 in Hpre; [|done]. simpl in Hpre. congruence.
    - destruct (lookup_lt_is_Some_2 (_tokens s) (_idx s + length pre))
        as [t Hts]; [specialize (Hhi Hi); lia|].
      pose proof (Hin (_idx s + length pre) t ltac:(lia) Hts) as Hk.
      rewrite (drop_lookup_head _ _ _ _ Hd) in Hts.
      rewrite (Hrest t Hts) in Hk. done. }
  rewrite Hj. f_equal. destruct s'. simpl in *. by subst.
Qed.

End SkipPrefix.

(** ** A [`define] without parameters *)

Lemma kind_in_singleton_true {K} `{EqDecision K} (t : Token K) (k : K) :
  kind_in t [k] = true ↔ kind t = k.
Proof.
  unfold kind_in. simpl. rewrite orb_false_r. apply bool_decide_eq_true.
Qed.

Lemma drop_add {A} (l : list A) i k : drop (i + k) l = drop k (drop i l).
Proof. by rewrite drop_drop. Qed.

Section DefinePlain.
Variable file_exists : option string → outcome bool.
Variable read_file : option string → outcome string.

#[local] Abbreviation define := (define file_exists read_file).

Lemma define_plain (define_token name_token sep : VToken) (s : VStream)
    (ws1 ws2 body tail : list VToken) :
  drop (_idx s) (_tokens s) = ws1 ++ name_token :: sep :: ws2 ++ body ++ tail →
  _idx s ≤ length (_tokens s) →
  Forall (λ t, kind t = WHITESPACE) ws1 →
  kind name_token = IDENTIFIER →
  kind sep = WHITESPACE ∨ kind sep = NEWLINE →
  Forall (λ t, kind t = WHITESPACE) ws2 →
  Forall (λ t, kind t ≠ NEWLINE) body →
  (∀ t, head body = Some t → kind t ≠ WHITESPACE) →
  (∀ t, head tail = Some t → kind t = NEWLINE) →
  define define_token s
  = Ret (Some {| name := value name_token; tokens := body; args := [];
                 defaults := ∅ |},
         mkStream (_tokens s)
           (_idx s + length ws1 + 2 + length ws2 + length body
            + match tail with [] => 0 | _ => 1 end)).
Proof.
  intros Hd Hi Hws1 Hname Hsep Hws2 Hbody Hhead Htail.
  pose proof (drop_length_app _ _ _ _ Hd Hi) as Hlen.
  cbn [length] in Hlen. rewrite !length_app in Hlen.
  unfold define.
  (* leading whitespace *)
  rewrite (skip_while_prefix [WHITESPACE] s ws1 _ Hd Hi); first last.
  { intros t [= <-]. apply kind_in_singleton. congruence. }
  { eapply Forall_impl; [done|]. intros t Ht. by apply kind_in_singleton_true. }
  set (i1 := _idx s + length ws1).
  (* the name *)
  assert (_tokens s !! i1 = Some name_token) as Hnt.
  { unfold i1. by rewrite (drop_lookup_head _ _ _ _ Hd). }
  rewrite (pop_lookup (mkStream (_tokens s) i1) name_token Hnt).
  assert (is_kind name_token NEWLINE = false) as ->
    by (apply is_kind_false; congruence).
  assert (is_kind name_token IDENTIFIER = true) as ->
    by (by apply is_kind_true).
  cbn [negb].
  (* the separator *)
  assert (drop (S i1) (_tokens s) = sep :: ws2 ++ body ++ tail) as Hd2.
  { unfold i1. rewrite <- Nat.add_succ_r, drop_add, Hd.
    by rewrite <- (Nat.add_1_r (length ws1)), drop_add, drop_app_length. }
  assert (_tokens s !! S i1 = Some sep) as Hsp.
  { rewrite <- (Nat.add_0_r (S i1)), <- lookup_drop, Hd2. done. }
  rewrite (pop_lookup (advance (mkStream (_tokens s) i1)) sep Hsp).
  assert (is_kind sep WHITESPACE || is_kind sep NEWLINE = true) as ->.
  { apply orb_true_iff.
    destruct Hsep; [left|right]; by apply is_kind_true. }
  (* whitespace before the body *)
  set (s3 := advance (advance (mkStream (_tokens s) i1))).
  assert (drop (_idx s3) (_tokens s3) = ws2 ++ body ++ tail) as Hd3.
  { simpl. rewrite (drop_S _ _ _ Hsp) in Hd2. by injection Hd2. }
  assert (_idx s3 ≤ length (_tokens s3)) as Hi3.
  { simpl. unfold i1. lia. }
  rewrite (skip_while_prefix [WHITESPACE] s3 ws2 _ Hd3 Hi3); first last.
  { intros t Ht. apply kind_in_singleton.
    destruct body as [|b body'].
    - simpl in Ht. apply Htail in Ht. congruence.
    - simpl in Ht. by apply Hhead. }
  { eapply Forall_impl; [done|]. intros t Ht. by apply kind_in_singleton_true. }
  (* the body *)
  set (s5 := mkStream (_tokens s3) (_idx s3 + length ws2)).
  assert (drop (_idx s5) (_tokens s5) = body ++ tail) as Hd5.
  { change (_tokens s5) with (_tokens s3).
    change (_idx s5) with (_idx s3 + length ws2).
    by rewrite drop_add, Hd3, drop_app_length. }
  assert (_idx s5 ≤ length (_tokens s5)) as Hi5.
  { simpl. unfold i1. lia. }
  rewrite (skip_until_prefix [NEWLINE] s5 body _ Hd5 Hi5); first last.
  { intros t Ht. apply kind_in_singleton_true. by apply Htail. }
  { eapply Forall_impl; [done|]. intros t Ht. by apply kind_in_singleton. }
  cbv beta iota zeta.
  set (s6 := mkStream (_tokens s5) (_idx s5 + length body)).
  assert (slice s6 (idx s5) (_idx s5 + length body) = body) as Hslice.
  { unfold slice, Py.slice, idx. change (_tokens s6) with (_tokens s5).
    rewrite Hd5. replace (_idx s5 + length body - _idx s5) with (length body)
      by lia.
    by rewrite take_app_length. }
  destruct tail as [|nlt tail']; simpl in Hlen.
  - rewrite (eof_true_length s6) by (simpl; unfold i1; lia). cbn [negb].
    rewrite Hslice. do 3 f_equal. simpl. unfold i1. lia.
  - assert (_tokens s6 !! _idx s6 = Some nlt) as Hnl.
    { simpl. pose proof (drop_lookup_head _ _ _ _ Hd5) as H. simpl in H. done. }
    rewrite (eof_false_lookup s6 nlt Hnl). cbn [negb].
    rewrite (pop_lookup s6 nlt Hnl). cbn [snd].
    assert (slice (advance s6) (idx s5) (_idx s5 + length body) = body) as ->
      by done.
    do 2 f_equal. unfold advance. simpl. f_equal. unfold i1. lia.
Qed.

(** X16. A [define] without a parameter list.  A name at the end of the
    stream gives the macro with an empty body.  Otherwise the token
    after the name, white space or a newline, is passed over, and so is
    the white space that follows it; the body is made of the tokens from
    there up to the next newline, and that newline is consumed with it.
    So a name followed by white space gets the rest of its line as body,
    and a name followed at once by a newline gets the whole next line,
    which is then no longer part of the text. *)
Theorem define_takes_the_tokens_up_to_the_next_newline
    (define_token name_token : VToken) (s : VStream) (ws1 : list VToken) :
  _idx s ≤ length (_tokens s) →
  Forall (λ t, kind t = WHITESPACE) ws1 →
  kind name_token = IDENTIFIER →
  (drop (_idx s) (_tokens s) = ws1 ++ [name_token] →
   define define_token s
   = Ret (Some (Macro_of_name (value name_token)),
          mkStream (_tokens s) (length (_tokens s))))
  ∧ (∀ sep ws2 body tail,
       drop (_idx s) (_tokens s)
       = ws1 ++ name_token :: sep :: ws2 ++ body ++ tail →
       kind sep = WHITESPACE ∨ kind sep = NEWLINE →
       Forall (λ t, kind t = WHITESPACE) ws2 →
       Forall (λ t, kind t ≠ NEWLINE) body →
       (∀ t, head body = Some t → kind t ≠ WHITESPACE) →
       (∀ t, head tail = Some t → kind t = NEWLINE) →
       define define_token s
       = Ret (Some {| name := value name_token; tokens := body; args := [];
                      defaults := ∅ |},
              mkStream (_tokens s)
                (_idx s + length ws1 + 2 + length ws2 + length body
                 + match tail with [] => 0 | _ => 1 end))).
Proof.
  intros Hi Hws1 Hname. split.
  - intros Hd.
    pose proof (drop_length_app _ _ _ _ Hd Hi) as Hlen. simpl in Hlen.
    unfold define.
    rewrite (skip_while_prefix [WHITESPACE] s ws1 _ Hd Hi); first last.
    { intros t [= <-]. apply kind_in_singleton. congruence. }
    { eapply Forall_impl; [done|]. intros t Ht. by apply kind_in_singleton_true. }
    assert (_tokens s !! (_idx s + length ws1) = Some name_token) as Hnt
      by (by rewrite (drop_lookup_head _ _ _ _ Hd)).
    rewrite (pop_lookup (mkStream (_tokens s) (_idx s + length ws1)) _ Hnt).
    assert (is_kind name_token NEWLINE = false) as ->
      by (apply is_kind_false; congruence).
    assert (is_kind name_token IDENTIFIER = true) as ->
      by (by apply is_kind_true).
    cbn [negb]. unfold pop. rewrite eof_true_length by (simpl; lia).
    do 2 f_equal. unfold advance. simpl. f_equal. lia.
  - intros sep ws2 body tail Hd. by apply define_plain.
Qed.

End DefinePlain.

Lemma define_takes_the_tokens_up_to_the_next_newline_witness :
  define Sample.file_exists Sample.read_file (Sample.T PREPROCESSOR "define")
    (mkStream Sample.define_then_use 1)
  = Ret (Some {| name := "foo";
                 tokens := [Sample.T IDENTIFIER "bar"; Sample.sp;
                            Sample.T STRING "abc"];
                 args := []; defaults := ∅ |},
         mkStream Sample.define_then_use 8)
  ∧ define Sample.file_exists Sample.read_file
      (Sample.T PREPROCESSOR "define")
      (mkStream Sample.define_flag_then_lines 1)
    = Ret (Some {| name := "foo"; tokens := [Sample.T IDENTIFIER "bar"];
                   args := []; defaults := ∅ |},
           mkStream Sample.define_flag_then_lines 6).
Proof.
  split.
  - apply (proj2 (define_takes_the_tokens_up_to_the_next_newline
                    Sample.file_exists Sample.read_file
                    (Sample.T PREPROCESSOR "define") (Sample.T IDENTIFIER "foo")
                    (mkStream Sample.define_then_use 1) [Sample.sp]
                    ltac:(simpl; lia) ltac:(by repeat constructor) eq_refl)
            Sample.sp []
            [Sample.T IDENTIFIER "bar"; Sample.sp; Sample.T STRING "abc"]
            [Sample.T NEWLINE nl; Sample.T PREPROCESSOR "foo"]).
    + reflexivity.
    + by left.
    + constructor.
    + by repeat constructor.
    + intros t [= <-]. done.
    + intros t [= <-]. done.
  - apply (proj2 (define_takes_the_tokens_up_to_the_next_newline
                    Sample.file_exists Sample.read_file
                    (Sample.T PREPROCESSOR "define") (Sample.T IDENTIFIER "foo")
                    (mkStream Sample.define_flag_then_lines 1) [Sample.sp]
                    ltac:(simpl; lia) ltac:(by repeat constructor) eq_refl)
            (Sample.T NEWLINE nl) [] [Sample.T IDENTIFIER "bar"]
            [Sample.T NEWLINE nl; Sample.T IDENTIFIER "baz"]).
    + reflexivity.
    + by right.
    + constructor.
    + by repeat constructor.
    + intros t [= <-]. done.
    + intros t [= <-]. done.
Defined.

(** ** Steps of the preprocessor *)

Lemma expand_from_stream_no_args (self : Macro) (s : VStream) :
  args self = [] → expand_from_stream self s = (tokens self, s).
Proof.
  intros Ha. unfold expand_from_stream, num_args, expand. rewrite Ha. simpl.
  by rewrite expand_loop_no_args.
Qed.

Section PreprocessSteps.
Variable file_exists : option string → outcome bool.
Variable read_file : option string → outcome string.
Variable exists_ : string → bool.
Variable read : string → outcome string.
Variable tokenize : string → list VToken.

#[local] Abbreviation preprocess_loop :=
  (preprocess_loop file_exists read_file exists_ read tokenize).
#[local] Abbreviation preprocess :=
  (preprocess file_exists read_file exists_ read tokenize).
#[local] Abbreviation define := (define file_exists read_file).

Implicit Types (defines : gmap string Macro) (stream : VStream)
  (included_files include_paths : list string) (result : list VToken).

Lemma preprocess_loop_define fuel include_paths stream defines included_files
    result t om stream' :
  _tokens stream !! _idx stream = Some t →
  kind t = PREPROCESSOR →
  value t = "define" →
  define t (advance stream) = Ret (om, stream') →
  let defines1 :=
    match om with
    | Some m => <[name m := m]> defines
    | None => defines
    end in
  defines1 !! "define" = None →
  preprocess_loop (S fuel) include_paths stream defines included_files result
  = preprocess_loop fuel include_paths stream' defines1 included_files result.
Proof.
  intros Ht Hk Hv Hd defines1 Hno. simpl.
  rewrite (eof_false_lookup _ _ Ht), (pop_lookup _ _ Ht).
  apply is_kind_true in Hk. rewrite Hk, Hv. simpl. rewrite Hd. simpl.
  fold defines1. destruct om as [m|]; simpl; fold defines1; by rewrite Hno.
Qed.

Lemma preprocess_loop_macro fuel include_paths stream defines included_files
    result t macro out stream' :
  _tokens stream !! _idx stream = Some t →
  kind t = PREPROCESSOR →
  value t ≠ "define" → value t ≠ "include" →
  defines !! value t = Some macro →
  expand_from_stream macro (advance stream) = (out, stream') →
  preprocess_loop (S fuel) include_paths stream defines included_files result
  = preprocess_loop fuel include_paths stream' defines included_files
      (result ++ out).
Proof.
  intros Ht Hk Hd Hi Hm He. simpl.
  rewrite (eof_false_lookup _ _ Ht), (pop_lookup _ _ Ht).
  apply is_kind_true in Hk. rewrite Hk. simpl.
  apply String.eqb_neq in Hd, Hi. rewrite Hd, Hi. simpl. by rewrite Hm, He.
Qed.

(** X17. A [define] of a macro without parameters, whose name is neither
    [define] nor [include], in a table that holds no macro named
    [define], followed by a use of the name after the newline that ends
    the body.  Preprocessing these tokens returns the body of the macro
    and nothing else: the directive and that newline leave no token.
    The body is what [define] takes: the tokens after the separator that
    follows the name and the white space after it, up to that newline;
    the separator is white space or itself a newline.  The macro is
    entered in the table under its name, replacing an older entry, and
    the log of included files is unchanged. *)
Theorem defined_macro_is_replaced_by_its_body
    (define_token name_token sep nlt use : VToken)
    (ws1 ws2 body : list VToken)
    defines include_paths included_files fuel :
  kind define_token = PREPROCESSOR → value define_token = "define" →
  Forall (λ t, kind t = WHITESPACE) ws1 →
  kind name_token = IDENTIFIER →
  value name_token ≠ "define" → value name_token ≠ "include" →
  kind sep = WHITESPACE ∨ kind sep = NEWLINE →
  Forall (λ t, kind t = WHITESPACE) ws2 →
  Forall (λ t, kind t ≠ NEWLINE) body →
  (∀ t, head body = Some t → kind t ≠ WHITESPACE) →
  kind nlt = NEWLINE →
  kind use = PREPROCESSOR → value use = value name_token →
  defines !! "define" = None →
  preprocess (S (S (S fuel)))
    (define_token :: ws1 ++ name_token :: sep :: ws2 ++ body ++ [nlt; use])
    defines include_paths included_files
  = Ret (body,
         <[value name_token :=
             {| name := value name_token; tokens := body; args := [];
                defaults := ∅ |}]> defines,
         included_files).
Proof.
  intros Hdk Hdv Hws1 Hnk Hnd Hni Hsep Hws2 Hbody Hhead Hnl Huk Huv Hno.
  unfold preprocess.
  set (toks := define_token :: ws1 ++ name_token :: sep :: ws2 ++ body ++ [nlt; use]).
  set (m := {| name := value name_token; tokens := body; args := [];
               defaults := ∅ |}).
  assert (length toks = 1 + length ws1 + 2 + length ws2 + length body + 2) as Hlen.
  { unfold toks. simpl. rewrite !length_app. simpl. rewrite !length_app. simpl. lia. }
  (* the [`define] *)
  rewrite (preprocess_loop_define _ _ _ _ _ _ define_token (Some m)
             (mkStream toks (1 + length ws1 + 2 + length ws2 + length body + 1)));
    [|done|done|done| |].
  2:{ change (advance (stream_of toks)) with (mkStream toks 1).
      rewrite (define_plain _ _ define_token name_token sep (mkStream toks 1)
                 ws1 ws2 body [nlt; use]); try done.
      - simpl. lia.
      - intros t [= <-]. done. }
  2:{ simpl. rewrite lookup_insert_ne by done. done. }
  (* the use *)
  assert (toks !! (1 + length ws1 + 2 + length ws2 + length body + 1) = Some use)
    as Huse.
  { unfold toks.
    replace (1 + length ws1 + 2 + length ws2 + length body + 1)
      with (S (length ws1 + (2 + (length ws2 + (length body + 1))))) by lia.
    rewrite lookup_cons, lookup_app_r, Nat.add_comm, Nat.add_sub by lia.
    simpl. rewrite lookup_app_r, Nat.add_comm, Nat.add_sub by lia.
    rewrite lookup_app_r, Nat.add_comm, Nat.add_sub by lia. done. }
  rewrite (preprocess_loop_macro (S fuel) _ _ _ _ _ use m body
             (mkStream toks (length toks))); try done.
  - simpl. by rewrite eof_true_length by (simpl; lia).
  - congruence.
  - congruence.
  - simpl. by rewrite Huv, lookup_insert_eq.
  - rewrite (expand_from_stream_no_args m) by done.
    rewrite Hlen. f_equal. unfold advance. cbn [_tokens _idx]. f_equal. lia.
Qed.

End PreprocessSteps.

Lemma defined_macro_is_replaced_by_its_body_witness :
  preprocess Sample.file_exists Sample.read_file
    Sample.exists_ Sample.read Sample.tokenize 3
    Sample.define_then_use {[ "foo" := Sample.bar ]} [] []
  = Ret ([Sample.T IDENTIFIER "bar"; Sample.sp; Sample.T STRING "abc"],
         <[ "foo" := {| name := "foo";
                        tokens := [Sample.T IDENTIFIER "bar"; Sample.sp;
                                   Sample.T STRING "abc"];
                        args := []; defaults := ∅ |} ]>
           {[ "foo" := Sample.bar ]},
         []).
Proof.
  apply (defined_macro_is_replaced_by_its_body
           Sample.file_exists Sample.read_file
             Sample.exists_ Sample.read Sample.tokenize
           (Sample.T PREPROCESSOR "define") (Sample.T IDENTIFIER "foo")
           Sample.sp (Sample.T NEWLINE nl) (Sample.T PREPROCESSOR "foo")
           [Sample.sp] []
           [Sample.T IDENTIFIER "bar"; Sample.sp; Sample.T STRING "abc"]
           {[ "foo" := Sample.bar ]} [] [] 0).
  - reflexivity.
  - reflexivity.
  - by repeat constructor.
  - reflexivity.
  - discriminate.
  - discriminate.
  - by left.
  - constructor.
  - by repeat constructor.
  - intros t [= <-]. done.
  - reflexivity.
  - reflexivity.
  - reflexivity.
  - reflexivity.
Defined.

(** Where the name is [define] or [include] the outcome is another.
    A macro named [define] is expanded at every [`define] directive, its
    own included, so the body comes out twice here; a macro named
    [include] is never expanded, because [`include] is the directive. *)
Example macro_named_define_is_expanded_at_its_definition :
  ∃ defines,
    preprocess Sample.file_exists Sample.read_file
      Sample.exists_ Sample.read Sample.tokenize 3
      Sample.define_named_define ∅ [] []
    = Ret ([Sample.T IDENTIFIER "x"; Sample.T IDENTIFIER "x"], defines, []).
Proof. eexists. vm_compute. reflexivity. Qed.

Example macro_named_include_is_never_expanded :
  ∃ defines,
    preprocess Sample.file_exists Sample.read_file
      Sample.exists_ Sample.read Sample.tokenize 3
      Sample.define_named_include ∅ [] []
    = Ret ([], defines, []).
Proof. eexists. vm_compute. reflexivity. Qed.

(** ** Whole runs of the preprocessor *)

Section PreprocessRuns.
Variable file_exists : option string → outcome bool.
Variable read_file : option string → outcome string.
Variable exists_ : string → bool.
Variable read : string → outcome string.
Variable tokenize : string → list VToken.

#[local] Abbreviation preprocess_loop :=
  (preprocess_loop file_exists read_file exists_ read tokenize).
#[local] Abbreviation preprocess :=
  (preprocess file_exists read_file exists_ read tokenize).
#[local] Abbreviation define := (define file_exists read_file).

Implicit Types (defines : gmap string Macro) (stream : VStream)
  (included_files include_paths : list string) (result : list VToken).

Lemma preprocess_loop_without_include fuel include_paths stream defines
    included_files result :
  (∀ t, t ∈ _tokens stream → kind t = PREPROCESSOR → value t ≠ "include") →
  (∀ t, t ∈ _tokens stream →
        returns (describe_location_call file_exists read_file (location t))) →
  _idx stream ≤ length (_tokens stream) →
  length (_tokens stream) - _idx stream < fuel →
  (∃ out defines',
     preprocess_loop fuel include_paths stream defines included_files result
     = Ret (out, defines', included_files))
  ∨ preprocess_loop fuel include_paths stream defines included_files result
    = Raise UnboundLocalError.
Proof.
  revert stream defines result; induction fuel as [|fuel IH];
    intros stream defines result Hno Hloc Hi Hfuel; [lia|].
  simpl. destruct (eof stream) eqn:Heof; [left; by eexists _, _|].
  assert (_idx stream < length (_tokens stream)) as Hlt.
  { unfold eof in Heof. apply negb_false_iff, Nat.ltb_lt in Heof. done. }
  destruct (lookup_lt_is_Some_2 _ _ Hlt) as [t Ht].
  rewrite (pop_lookup _ _ Ht).
  assert (∀ s' defines' result',
    consumed (advance stream) s' →
    (∃ out defines'',
       preprocess_loop fuel include_paths s' defines' included_files result'
       = Ret (out, defines'', included_files))
    ∨ preprocess_loop fuel include_paths s' defines' included_files result'
      = Raise UnboundLocalError) as Hnext.
  { intros s' defines' result' (Hts & Hlo & Hhi). simpl in *.
    apply IH; rewrite ?Hts; [done|done|apply Hhi; lia|lia]. }
  destruct (is_kind t PREPROCESSOR) eqn:Hk; cbn [negb].
  2:{ apply Hnext, consumed_refl. }
  apply is_kind_true in Hk.
  assert (t ∈ _tokens stream) as Hin by (by eapply list_elem_of_lookup_2).
  assert (value t ≠ "include") as Hinc by (by apply Hno).
  apply String.eqb_neq in Hinc. rewrite Hinc.
  assert (∀ s2 defines1,
    consumed (advance stream) s2 →
    (∃ out defines',
       match defines1 !! value t with
       | Some macro =>
           let '(expanded, stream0) := expand_from_stream macro s2 in
           preprocess_loop fuel include_paths stream0 defines1 included_files
             (result ++ expanded)
       | None =>
           preprocess_loop fuel include_paths s2 defines1 included_files result
       end = Ret (out, defines', included_files))
    ∨ match defines1 !! value t with
      | Some macro =>
          let '(expanded, stream0) := expand_from_stream macro s2 in
          preprocess_loop fuel include_paths stream0 defines1 included_files
            (result ++ expanded)
      | None =>
          preprocess_loop fuel include_paths s2 defines1 included_files result
      end = Raise UnboundLocalError) as Huse.
  { intros s2 defines1 Hc2.
    destruct (defines1 !! value t) as [macro|]; [|by apply Hnext].
    destruct (expand_from_stream macro s2) as [expanded s3] eqn:He.
    apply expand_from_stream_consumed in He.
    apply Hnext. by eapply consumed_trans. }
  destruct (String.eqb (value t) "define").
  - pose proof (define_cases file_exists read_file t (advance stream)) as Hd.
    cbv zeta in Hd.
    assert (∀ o, ¬ returns o →
      ¬ ((describe_location_call file_exists read_file (location t) = o
          ∧ ∀ name_token,
              _tokens (skip_while (advance stream) [WHITESPACE]).2
                !! _idx (skip_while (advance stream) [WHITESPACE]).2
              = Some name_token →
              kind name_token = NEWLINE)
         ∨ (∃ name_token,
              _tokens (skip_while (advance stream) [WHITESPACE]).2
                !! _idx (skip_while (advance stream) [WHITESPACE]).2
              = Some name_token
              ∧ kind name_token ≠ NEWLINE ∧ kind name_token ≠ IDENTIFIER
              ∧ describe_location_call file_exists read_file
                  (location name_token) = o))) as Hwarn.
    { intros o Ho [[Hw _]|(nt & Hnt & _ & _ & Hw)]; apply Ho; rewrite <- Hw.
      - by apply Hloc.
      - apply Hloc.
        destruct (skip_while (advance stream) [WHITESPACE]) as [i s1] eqn:Hw1.
        destruct (skip_while_consumed _ _ _ _ Hw1) as (Hts & _).
        simpl in Hnt, Hts. rewrite Hts in Hnt.
        by eapply list_elem_of_lookup_2. }
    destruct (define t (advance stream)) as [[[m|] s2]|e|]; simpl.
    + apply Huse. by destruct Hd.
    + by apply Huse.
    + right. destruct Hd as [[-> _]|Hd]; [done|].
      exfalso. apply (Hwarn (Raise e)); [|done]. by intros [? ?].
    + exfalso. apply (Hwarn OutOfFuel); [|done]. by intros [? ?].
  - simpl. apply Huse, consumed_refl.
Qed.

(** X18. On tokens without an [include] directive, and when describing
    the location of any of the tokens raises nothing (as is the case for
    tokens without a location), [preprocess] comes to an end within one
    round of its loop per token: it returns, with the log of included
    files unchanged, or it raises the [UnboundLocalError] of [define]. *)
Theorem preprocess_without_include_comes_to_an_end
    (toks : list VToken) defines include_paths included_files :
  (∀ t, t ∈ toks → kind t = PREPROCESSOR → value t ≠ "include") →
  (∀ t, t ∈ toks →
        returns (describe_location_call file_exists read_file (location t))) →
  (∃ out defines',
     preprocess (S (length toks)) toks defines include_paths included_files
     = Ret (out, defines', included_files))
  ∨ preprocess (S (length toks)) toks defines include_paths included_files
    = Raise UnboundLocalError.
Proof.
  intros Hno Hloc. unfold preprocess.
  apply preprocess_loop_without_include; simpl; [done|done|lia|lia].
Qed.

(** X19. A file that is found on the include paths and begins with an
    [include] of its own name is never preprocessed: each call of
    [preprocess] makes a nested call on the same tokens before it
    returns, so no bound on the nesting is enough.  The log of included
    files is written but never consulted. *)
Theorem file_that_includes_itself_is_never_preprocessed
    (include_paths : list string) (file_name full_name code : string)
    (directive argument : VToken) (ws rest : list VToken) :
  find_include exists_ include_paths file_name = Some full_name →
  read full_name = Ret code →
  tokenize code = directive :: ws ++ argument :: rest →
  kind directive = PREPROCESSOR → value directive = "include" →
  Forall (λ t, kind t = WHITESPACE) ws →
  kind argument = STRING → value argument = file_name →
  ∀ fuel defines included_files,
    preprocess fuel (tokenize code) defines include_paths included_files
    = OutOfFuel.
Proof.
  intros Hfind Hread Htoks Hdk Hdv Hws Hak Hav.
  induction fuel as [|fuel IH]; intros defines included_files; [done|].
  unfold preprocess in *.
  remember (stream_of (tokenize code)) as stream eqn:Hs.
  assert (_tokens stream !! _idx stream = Some directive) as Ht.
  { subst stream. by rewrite Htoks. }
  assert (include_argument defines (advance stream)
          = (Some file_name,
             mkStream (_tokens (advance stream)) (S (S (length ws))))) as Harg.
  { rewrite <- Hav. apply include_argument_string; [| | |done].
    - subst stream. simpl. lia.
    - subst stream. rewrite Htoks. simpl. intros i t Hi.
      destruct i as [|i]; [lia|]. simpl. rewrite lookup_app_l by lia.
      intros Hl. by eapply Forall_lookup_1 in Hws.
    - subst stream. rewrite Htoks. simpl.
      by rewrite lookup_app_r, Nat.sub_diag. }
  simpl. rewrite (eof_false_lookup _ _ Ht), (pop_lookup _ _ Ht).
  apply is_kind_true in Hdk. rewrite Hdk, Hdv. simpl.
  rewrite Harg, Hfind, Hread. simpl. rewrite <- Hs. by rewrite IH.
Qed.

Lemma preprocess_loop_table fuel include_paths stream defines included_files
    result out defines' included_files' :
  preprocess_loop fuel include_paths stream defines included_files result
  = Ret (out, defines', included_files') →
  ∀ k, is_Some (defines !! k) → is_Some (defines' !! k).
Proof.
  revert stream defines included_files result out defines' included_files'.
  induction fuel as [|fuel IH];
    intros stream defines included_files result out defines' included_files';
    [done|].
  simpl. destruct (eof stream); [by intros [= _ <- _]|].
  destruct (pop stream) as [[token|] stream1]; [|done].
  destruct (negb (is_kind token PREPROCESSOR)); [apply IH|].
  assert (∀ (m : outcome (gmap string Macro * VStream)),
    (∀ d s, m = Ret (d, s) → ∀ k, is_Some (defines !! k) → is_Some (d !! k)) →
    m ≫= (λ '(defines0, stream0),
            if String.eqb (value token) "include" then
              match include_argument defines0 stream0 with
              | (Some file_name, stream2) =>
                  match find_include exists_ include_paths file_name with
                  | Some full_name =>
                      read full_name
                      ≫= λ code,
                           preprocess_loop fuel include_paths
                             (stream_of (tokenize code)) defines0
                             (included_files ++ [full_name]) []
                           ≫= λ '(included, defines1, included_files0),
                                preprocess_loop fuel include_paths stream2
                                  defines1 included_files0
                                  (result ++ included)
                  | None =>
                      preprocess_loop fuel include_paths stream2 defines0
                        included_files result
                  end
              | (None, stream2) =>
                  preprocess_loop fuel include_paths stream2 defines0
                    included_files result
              end
            else
              match defines0 !! value token with
              | Some macro =>
                  let '(expanded, stream2) := expand_from_stream macro stream0 in
                  preprocess_loop fuel include_paths stream2 defines0
                    included_files (result ++ expanded)
              | None =>
                  preprocess_loop fuel include_paths stream0 defines0
                    included_files result
              end)
    = Ret (out, defines', included_files') →
    ∀ k, is_Some (defines !! k) → is_Some (defines' !! k)) as Hrest.
  { intros [[d s]|e|] Hm; simpl; [|done..].
    specialize (Hm d s eq_refl).
    destruct (String.eqb (value token) "include").
    - destruct (include_argument d s) as [[file_name|] s2].
      + destruct (find_include exists_ include_paths file_name) as [full_name|].
        * destruct (read full_name) as [code| |]; simpl; [|done..].
          destruct (preprocess_loop fuel include_paths (stream_of _) d _ [])
            as [[[included d2] l2]| |] eqn:E; simpl; [|done..].
          intros H k Hk. eapply IH; [exact H|]. eapply IH; [exact E|]. by apply Hm.
        * intros H k Hk. eapply IH; [exact H|]. by apply Hm.
      + intros H k Hk. eapply IH; [exact H|]. by apply Hm.
    - destruct (d !! value token) as [macro|].
      + destruct (expand_from_stream macro s) as [expanded s2].
        intros H k Hk. eapply IH; [exact H|]. by apply Hm.
      + intros H k Hk. eapply IH; [exact H|]. by apply Hm. }
  apply Hrest.
  destruct (String.eqb (value token) "define"); [|by intros d s [= <- _]].
  destruct (define token stream1) as [[[m|] s2]|e|]; simpl; try done.
  - intros d s [= <- _] k Hk.
    destruct (decide (k = name m)) as [->|Hne].
    + by rewrite lookup_insert_eq.
    + by rewrite lookup_insert_ne.
  - by intros d s [= <- _].
Qed.

(** X20. When [preprocess] returns, the log of included files is the log
    it was given followed by new entries, and every name that was
    defined before the call is still defined after it. *)
Theorem preprocess_only_adds_to_the_log_and_the_table
    fuel (toks : list VToken) defines include_paths included_files
    out defines' included_files' :
  preprocess fuel toks defines include_paths included_files
  = Ret (out, defines', included_files') →
  (∃ extra, included_files' = included_files ++ extra)
  ∧ (∀ k, is_Some (defines !! k) → is_Some (defines' !! k)).
Proof.
  unfold preprocess. intros H. split.
  - by eapply preprocess_loop_log.
  - by eapply preprocess_loop_table.
Qed.

End PreprocessRuns.

Lemma include_argument_eof defines (s : VStream) (ws : list VToken) :
  drop (_idx s) (_tokens s) = ws →
  _idx s ≤ length (_tokens s) →
  Forall (λ t, kind t = WHITESPACE) ws →
  include_argument defines s = (None, mkStream (_tokens s) (length (_tokens s))).
Proof.
  intros Hd Hi Hws. unfold include_argument.
  rewrite (skip_while_prefix [WHITESPACE] s ws []); [|by rewrite app_nil_r|done| |done].
  2:{ eapply Forall_impl; [exact Hws|]. intros t Ht. by apply kind_in_singleton_true. }
  pose proof (drop_length_app _ _ ws [] ltac:(by rewrite app_nil_r) Hi) as Hlen.
  simpl in Hlen. unfold pop. rewrite eof_true_length by (simpl; lia).
  do 2 f_equal. lia.
Qed.

Lemma include_argument_bad defines (s : VStream) (ws rest : list VToken)
    (bad : VToken) :
  drop (_idx s) (_tokens s) = ws ++ bad :: rest →
  _idx s ≤ length (_tokens s) →
  Forall (λ t, kind t = WHITESPACE) ws →
  kind bad ≠ WHITESPACE → kind bad ≠ STRING →
  (kind bad = PREPROCESSOR → defines !! value bad = None) →
  include_argument defines s
  = (None, mkStream (_tokens s) (_idx s + length ws + 1)).
Proof.
  intros Hd Hi Hws Hnw Hns Hpp. unfold include_argument.
  rewrite (skip_while_prefix [WHITESPACE] s ws (bad :: rest)); [|done..| |].
  2:{ eapply Forall_impl; [exact Hws|]. intros t Ht. by apply kind_in_singleton_true. }
  2:{ intros t [= <-]. by apply kind_in_singleton. }
  pose proof (drop_lookup_head _ _ _ _ Hd) as Hb. simpl in Hb.
  rewrite (pop_lookup (mkStream _ _) bad) by done.
  unfold advance. cbn [_tokens _idx]. replace (S (_idx s + length ws)) with (_idx s + length ws + 1) by lia.
  destruct (is_kind bad PREPROCESSOR) eqn:Hk.
  - apply is_kind_true in Hk. by rewrite (Hpp Hk).
  - apply is_kind_false in Hns. by rewrite Hns.
Qed.

Section PreprocessInclude.
Variable file_exists : option string → outcome bool.
Variable read_file : option string → outcome string.
Variable exists_ : string → bool.
Variable read : string → outcome string.
Variable tokenize : string → list VToken.

#[local] Abbreviation preprocess_loop :=
  (preprocess_loop file_exists read_file exists_ read tokenize).
#[local] Abbreviation preprocess :=
  (preprocess file_exists read_file exists_ read tokenize).
#[local] Abbreviation define := (define file_exists read_file).

(** X21. A broken [include].  Followed by white space only, it ends the
    run with the result, the table and the log as they were.  Followed,
    after white space, by a token that is neither a string nor the name
    of a defined macro, it is dropped together with that token: the loop
    goes on after the token, with result, table and log unchanged. *)
Theorem include_without_a_file_name_swallows_its_argument
    fuel (include_paths included_files : list string) (stream : VStream)
    (defines : gmap string Macro) (result ws : list VToken)
    (directive : VToken) :
  _tokens stream !! _idx stream = Some directive →
  kind directive = PREPROCESSOR → value directive = "include" →
  Forall (λ t, kind t = WHITESPACE) ws →
  (drop (S (_idx stream)) (_tokens stream) = ws →
   preprocess_loop (S (S fuel)) include_paths stream defines included_files
     result
   = Ret (result, defines, included_files))
  ∧ (∀ (bad : VToken) (rest : list VToken),
       drop (S (_idx stream)) (_tokens stream) = ws ++ bad :: rest →
       kind bad ≠ WHITESPACE → kind bad ≠ STRING →
       (kind bad = PREPROCESSOR → defines !! value bad = None) →
       preprocess_loop (S fuel) include_paths stream defines included_files
         result
       = preprocess_loop fuel include_paths
           (mkStream (_tokens stream) (_idx stream + length ws + 2))
           defines included_files result).
Proof.
  intros Ht Hk Hv Hws.
  assert (∀ stream',
    include_argument defines (advance stream) = (None, stream') →
    preprocess_loop (S fuel) include_paths stream defines included_files result
    = preprocess_loop fuel include_paths stream' defines included_files result)
    as Hstep.
  { intros stream' Harg. simpl.
    rewrite (eof_false_lookup _ _ Ht), (pop_lookup _ _ Ht).
    apply is_kind_true in Hk. rewrite Hk, Hv. simpl. by rewrite Harg. }
  pose proof (lookup_lt_Some _ _ _ Ht) as Hlt.
  split.
  - intros Hd.
    assert (include_argument defines (advance stream)
            = (None, mkStream (_tokens stream) (length (_tokens stream))))
      as Harg.
    { by apply (include_argument_eof defines (advance stream) ws); simpl; [|lia|]. }
    simpl. rewrite (eof_false_lookup _ _ Ht), (pop_lookup _ _ Ht).
    apply is_kind_true in Hk. rewrite Hk, Hv. simpl. rewrite Harg.
    by rewrite eof_true_length.
  - intros bad rest Hd Hnw Hns Hpp.
    rewrite (Hstep (mkStream (_tokens stream) (_idx stream + length ws + 2))); [done|].
    rewrite (include_argument_bad defines (advance stream) ws rest bad);
      simpl; [|done|lia|done..].
    do 2 f_equal. lia.
Qed.

End PreprocessInclude.


Lemma expand_from_stream_gives_up_on_a_malformed_call_witness :
  expand_from_stream Sample.foo_without_default
    (stream_of [Sample.T Sample.INTEGER "1"; Sample.sp])
  = ([], mkStream [Sample.T Sample.INTEGER "1"; Sample.sp] 1)
  ∧ expand_from_stream Sample.foo_without_default
      (stream_of [Sample.T LPAR "("; Sample.T Sample.INTEGER "1"; Sample.sp])
    = ([], mkStream [Sample.T LPAR "("; Sample.T Sample.INTEGER "1"; Sample.sp] 3).
Proof.
  split.
  - apply (proj1 (proj2 (expand_from_stream_gives_up_on_a_malformed_call
             Sample.foo_without_default
             (stream_of [Sample.T Sample.INTEGER "1"; Sample.sp])
             ltac:(discriminate))) (Sample.T Sample.INTEGER "1")).
    + reflexivity.
    + discriminate.
  - apply (proj2 (proj2 (expand_from_stream_gives_up_on_a_malformed_call
             Sample.foo_without_default
             (stream_of [Sample.T LPAR "("; Sample.T Sample.INTEGER "1"; Sample.sp])
             ltac:(discriminate))) (Sample.T LPAR "(")).
    + reflexivity.
    + reflexivity.
    + by repeat constructor.
Defined.

Lemma expand_emits_only_body_actual_and_default_tokens_witness :
  Sample.T IDENTIFIER "default" ∈ tokens Sample.foo_with_default
  ∨ (∃ v, v ∈ [[Sample.T Sample.INTEGER "1"]] ∧ Sample.T IDENTIFIER "default" ∈ v)
  ∨ (∃ k d, defaults Sample.foo_with_default !! k = Some d
            ∧ Sample.T IDENTIFIER "default" ∈ d).
Proof.
  apply (expand_emits_only_body_actual_and_default_tokens
           Sample.foo_with_default [[Sample.T Sample.INTEGER "1"]]
           (Sample.T IDENTIFIER "default")).
  change (Sample.T IDENTIFIER "default" ∈ Sample.one_default).
  unfold Sample.one_default. rewrite !elem_of_cons. tauto.
Defined.

Lemma preprocess_without_include_comes_to_an_end_witness :
  (∃ out defines',
     preprocess Sample.file_exists Sample.read_file
       Sample.exists_ Sample.read Sample.tokenize
       (S (length Sample.two_args_one_actual)) Sample.two_args_one_actual
       ∅ [] []
     = Ret (out, defines', []))
  ∨ preprocess Sample.file_exists Sample.read_file
      Sample.exists_ Sample.read Sample.tokenize
      (S (length Sample.two_args_one_actual)) Sample.two_args_one_actual
      ∅ [] []
    = Raise UnboundLocalError.
Proof.
  apply (preprocess_without_include_comes_to_an_end
           Sample.file_exists Sample.read_file
             Sample.exists_ Sample.read Sample.tokenize
           Sample.two_args_one_actual ∅ [] []).
  - intros t Ht _. unfold Sample.two_args_one_actual in Ht.
    rewrite !elem_of_cons, elem_of_nil in Ht.
    repeat (destruct Ht as [->|Ht]; [discriminate|]). done.
  - intros t Ht. unfold Sample.two_args_one_actual in Ht.
    rewrite !elem_of_cons, elem_of_nil in Ht.
    repeat (destruct Ht as [->|Ht]; [by eexists|]). done.
Defined.

Lemma file_that_includes_itself_is_never_preprocessed_witness :
  preprocess Sample.file_exists Sample.read_file
    Sample.self_exists Sample.self_read Sample.self_tokenize 1000
    (Sample.self_tokenize Sample.self_code) ∅ ["/inc"] []
  = OutOfFuel.
Proof.
  apply (file_that_includes_itself_is_never_preprocessed
           Sample.file_exists Sample.read_file
           Sample.self_exists Sample.self_read Sample.self_tokenize
           ["/inc"] "a.v" "/inc/a.v" Sample.self_code
           (Sample.T PREPROCESSOR "include") (Sample.T STRING "a.v")
           [Sample.sp] []).
  - reflexivity.
  - reflexivity.
  - reflexivity.
  - reflexivity.
  - reflexivity.
  - by repeat constructor.
  - reflexivity.
  - reflexivity.
Defined.

Lemma preprocess_only_adds_to_the_log_and_the_table_witness :
  ∃ out defines' included_files',
    preprocess Sample.file_exists Sample.read_file
      Sample.exists_ Sample.read Sample.tokenize 5
      (Sample.include_then_semicolon ++ Sample.define_then_use)
      {[ "bar" := Sample.bar ]} ["/out"] ["/seen.v"]
    = Ret (out, defines', included_files')
    ∧ (∃ extra, included_files' = ["/seen.v"] ++ extra)
    ∧ (∀ k, is_Some (({[ "bar" := Sample.bar ]} : gmap string Macro) !! k) →
            is_Some (defines' !! k)).
Proof.
  eexists _, _, _. split; [vm_compute; reflexivity|].
  eapply (preprocess_only_adds_to_the_log_and_the_table
           Sample.file_exists Sample.read_file
             Sample.exists_ Sample.read Sample.tokenize 5
           (Sample.include_then_semicolon ++ Sample.define_then_use)
           {[ "bar" := Sample.bar ]} ["/out"] ["/seen.v"]).
  vm_compute. reflexivity.
Defined.

Lemma include_without_a_file_name_swallows_its_argument_witness :
  preprocess_loop Sample.file_exists Sample.read_file
    Sample.exists_ Sample.read Sample.tokenize 2 []
    (stream_of [Sample.T PREPROCESSOR "include"; Sample.sp]) ∅ [] []
  = Ret ([], ∅, [])
  ∧ preprocess_loop Sample.file_exists Sample.read_file
      Sample.exists_ Sample.read Sample.tokenize 2 []
      (stream_of [Sample.T PREPROCESSOR "include"; Sample.sp;
                  Sample.T IDENTIFIER "hello"; Sample.T IDENTIFIER "hey"])
      ∅ [] []
    = preprocess_loop Sample.file_exists Sample.read_file
        Sample.exists_ Sample.read Sample.tokenize 1 []
        (mkStream [Sample.T PREPROCESSOR "include"; Sample.sp;
                   Sample.T IDENTIFIER "hello"; Sample.T IDENTIFIER "hey"] 3)
        ∅ [] [].
Proof.
  split.
  - apply (proj1 (include_without_a_file_name_swallows_its_argument
             Sample.file_exists Sample.read_file
               Sample.exists_ Sample.read Sample.tokenize 0 [] []
             (stream_of [Sample.T PREPROCESSOR "include"; Sample.sp]) ∅ []
             [Sample.sp] (Sample.T PREPROCESSOR "include")
             eq_refl eq_refl eq_refl
             ltac:(by repeat constructor))).
    reflexivity.
  - apply (proj2 (include_without_a_file_name_swallows_its_argument
             Sample.file_exists Sample.read_file
               Sample.exists_ Sample.read Sample.tokenize 1 [] []
             (stream_of [Sample.T PREPROCESSOR "include"; Sample.sp;
                         Sample.T IDENTIFIER "hello"; Sample.T IDENTIFIER "hey"])
             ∅ [] [Sample.sp] (Sample.T PREPROCESSOR "include")
             eq_refl eq_refl eq_refl
             ltac:(by repeat constructor))
             (Sample.T IDENTIFIER "hello") [Sample.T IDENTIFIER "hey"]).
    + reflexivity.
    + discriminate.
    + discriminate.
    + discriminate.
Defined.

(** ** Locations and rules that match nothing *)

Section TokenizerLocations.
Context {K : Type}.
Implicit Types (self : Tokenizer K) (alts : list pattern) (code : string).

Lemma tokenize_loop_no_locations self alts code fn fuel start acc toks :
  (∀ k f, (k, f) ∈ _assoc self → f = None) →
  Forall (λ t, location t = None) acc →
  tokenize_loop self alts code fn false fuel start acc = Ret toks →
  Forall (λ t, location t = None) toks.
Proof.
  intros Hf. revert start acc; induction fuel as [|fuel IH]; intros start acc Hacc;
    simpl; [done|].
  destruct (search alts code start) as [m|]; [|by intros [= <-]].
  destruct (_assoc self !! lastgroup m) as [[k func]|] eqn:El; [|done].
  apply list_elem_of_lookup_2, Hf in El as ->.
  apply IH. apply Forall_app_2; [done|]. by apply Forall_cons_2.
Qed.

(** X22. Without post-processors the locations of the tokens are as
    follows.  With [create_locations] the first location starts at
    offset 0, every later one starts one past the end of the one before
    it, and all carry the given file name; without it every token has
    the location [None]. *)
Theorem token_locations_follow_one_another self fuel code fn
    (create_locations : bool) toks :
  (∀ k f, (k, f) ∈ _assoc self → f = None) →
  tokenize self fuel code fn create_locations = Ret toks →
  if create_locations then spans_chain fn 0 toks
  else Forall (λ t, location t = None) toks.
Proof.
  intros Hf H. destruct create_locations.
  - by eapply tokenize_spans.
  - apply tokenize_Ret in H as (alts & _ & _ & H).
    by eapply tokenize_loop_no_locations.
Qed.

Lemma tokenize_loop_stuck_forever self alts code fn cl p key fuel acc :
  p ≤ String.length code →
  first_alt alts code p 0 = Some (key, p) →
  is_Some (_assoc self !! key) →
  tokenize_loop self alts code fn cl fuel p acc = OutOfFuel.
Proof.
  intros Hp E [[k func] Hk]. revert acc; induction fuel as [|fuel IH];
    intros acc; simpl; [done|].
  rewrite (search_here _ _ _ _ _ Hp E). simpl.
  unfold post_processor in *. rewrite Hk. apply IH.
Qed.

(** X23. A rule that matches the empty string keeps [tokenize] from
    returning: when the first match in the text is empty, the next
    search starts where that match ended and finds it again, and the
    loop has no other exit. *)
Theorem empty_match_keeps_tokenize_from_returning self alts code m :
  constructed self →
  _regex self = Some alts →
  Forall pattern_sound alts →
  search alts code 0 = Some m →
  m_end m = m_start m →
  ∀ fuel fn cl, tokenize self fuel code fn cl = OutOfFuel.
Proof.
  intros Hc Hr Hs Hm Hempty fuel fn cl.
  assert (alts ≠ []) as Hne.
  { intros ->. unfold search in Hm.
    by apply search_from_Some in Hm as (_ & Ha & _). }
  rewrite (tokenize_Some _ _ _ _ _ _ Hr Hne).
  destruct fuel as [|fuel]; [done|]. simpl. rewrite Hm.
  unfold search in Hm. rewrite Nat.min_l in Hm by lia.
  apply search_from_Some in Hm as (_ & Ha & _).
  pose proof (first_alt_sound _ _ _ _ _ _ Hs Ha) as He.
  pose proof (first_alt_key _ _ _ _ _ _ Ha) as Hkey.
  destruct (constructed_lengths _ Hc) as [Hlen Halts].
  specialize (Halts _ Hr).
  assert (is_Some (_assoc self !! lastgroup m)) as Hsome.
  { apply lookup_lt_is_Some_2. unfold post_processor in *. lia. }
  destruct Hsome as [[k func] Hk]. unfold post_processor in *. rewrite Hk.
  apply (tokenize_loop_stuck_forever self alts code fn cl (m_end m) (lastgroup m));
    [lia| |by eexists].
  rewrite Hempty at 1. exact Ha.
Qed.

End TokenizerLocations.

Lemma token_locations_follow_one_another_witness :
  ∃ toks,
    tokenize Sample.words_and_numbers 9 "ab 12;cd" (Some "fn.v") true = Ret toks
    ∧ spans_chain (Some "fn.v") 0 toks.
Proof.
  eexists. split; [vm_compute; reflexivity|].
  apply (token_locations_follow_one_another
           Sample.words_and_numbers 9 "ab 12;cd" (Some "fn.v") true).
  - intros k f H. simpl in H.
    repeat (apply elem_of_cons in H as [[= -> ->]|H]; [done|]).
    by apply elem_of_nil in H.
  - vm_compute. reflexivity.
Defined.

Lemma zero_or_more_sound p : pattern_sound (Sample.zero_or_more p).
Proof.
  intros code pos e. unfold Sample.zero_or_more.
  destruct (Nat.leb_spec pos (String.length code)) as [Hle|]; [|done].
  intros [= <-].
  pose proof (run_length_le p (Py.str_drop pos code)) as Hr.
  rewrite str_drop_length in Hr. lia.
Qed.

Lemma empty_match_keeps_tokenize_from_returning_witness :
  tokenize Sample.maybe_numbers 1000 "a1" None false = OutOfFuel.
Proof.
  apply (empty_match_keeps_tokenize_from_returning
           Sample.maybe_numbers [Sample.zero_or_more Sample.is_digit] "a1"
           (mkMatch 0 0 0)).
  - apply constructed_finalize, constructed_add, constructed_init.
  - reflexivity.
  - apply Forall_cons_2; [apply zero_or_more_sound|apply Forall_nil_2].
  - reflexivity.
  - reflexivity.
Defined.

(** ** The file name of an [include] given by a macro *)

(** X24. When an [include] is followed, after white space, by the name of
    a defined macro without parameters, the file name is the value of
    the first token of the macro's body, provided that token is a
    string.  An empty body, or one that begins with another token, gives
    no file name.  The cursor is left after the macro name. *)
Theorem include_takes_its_file_name_from_a_macro
    (defines : gmap string Macro) (s : VStream) (ws rest : list VToken)
    (tok : VToken) (macro : Macro) :
  drop (_idx s) (_tokens s) = ws ++ tok :: rest →
  _idx s ≤ length (_tokens s) →
  Forall (λ t, kind t = WHITESPACE) ws →
  kind tok = PREPROCESSOR →
  defines !! value tok = Some macro →
  args macro = [] →
  include_argument defines s
  = (match tokens macro with
     | first :: _ => if is_kind first STRING then Some (value first) else None
     | [] => None
     end,
     mkStream (_tokens s) (_idx s + length ws + 1)).
Proof.
  intros Hd Hi Hws Hk Hm Ha. unfold include_argument.
  rewrite (skip_while_prefix [WHITESPACE] s ws (tok :: rest)); [|done..| |].
  2:{ eapply Forall_impl; [exact Hws|]. intros t Ht. by apply kind_in_singleton_true. }
  2:{ intros t [= <-]. apply kind_in_singleton. by rewrite Hk. }
  pose proof (drop_lookup_head _ _ _ _ Hd) as Hb. simpl in Hb.
  rewrite (pop_lookup (mkStream _ _) tok) by done.
  unfold advance. cbn [_tokens _idx].
  replace (S (_idx s + length ws)) with (_idx s + length ws + 1) by lia.
  apply is_kind_true in Hk. rewrite Hk, Hm.
  rewrite (expand_from_stream_no_args macro) by done.
  destruct (tokens macro) as [|first more]; [done|].
  by destruct (is_kind first STRING).
Qed.

Lemma include_takes_its_file_name_from_a_macro_witness :
  include_argument {[ "bar" := Sample.bar ]}
    (mkStream Sample.include_through_macro 1)
  = (Some "abc", mkStream Sample.include_through_macro 3).
Proof.
  apply (include_takes_its_file_name_from_a_macro
           {[ "bar" := Sample.bar ]} (mkStream Sample.include_through_macro 1)
           [Sample.sp] [Sample.T NEWLINE nl] (Sample.T PREPROCESSOR "bar")
           Sample.bar).
  - reflexivity.
  - simpl. lia.
  - by repeat constructor.
  - reflexivity.
  - reflexivity.
  - reflexivity.
Defined.
